(** * sort_by_qed: a verified model of [scripts/sort_by_qed.py]

    The script reads a CSV file, orders its records by the number held in
    one column (largest first) and writes them back under the same header.
    This development embeds the script's functions in Rocq and proves, or
    refutes on explicit inputs, the properties stated for them.

    Conventions of the model.
    - A Python [str] is a Rocq [string]; a character is a Unicode code
      point below 256, so [str.lower] and [float] are the ones CPython
      computes on such text.
    - A Python [float] is an IEEE 754 binary64 value, [spec_float] with
      precision 53 and maximal exponent 1024.
    - An exception is a value of [exn]; a computation that may raise
      returns [result]. *)

From Stdlib Require Import ZArith Ascii String Floats.SpecFloat.
From stdpp Require Import gmap strings list sorting pretty.

Local Open Scope string_scope.

#[local] Set Warnings "-clear-no-such-hyp".

(** ** Exceptions *)

Inductive exn :=
  | TypeError
  | ValueError
  | AttributeError
  | FileNotFoundError
  | SystemExit (msg : string).

Inductive result (A : Type) :=
  | Ok (a : A)
  | Raise (e : exn).
Arguments Ok {A} a.
Arguments Raise {A} e.

#[export] Instance result_ret : MRet result := fun A a => Ok a.

#[export] Instance result_bind : MBind result := fun A B k m =>
  match m with
  | Ok a => k a
  | Raise e => Raise e
  end.

(** [try: body except handled: handler].  An exception that the clause
    does not name goes on to the caller. *)
Definition try_except {A} (body : result A) (handled : exn -> bool)
    (handler : result A) : result A :=
  match body with
  | Ok a => Ok a
  | Raise e => if handled e then handler else Raise e
  end.

(** The calls of a comprehension or of [map], left to right, stopping at
    the first one that raises. *)
Fixpoint map_result {A B} (f : A -> result B) (l : list A) : result (list B) :=
  match l with
  | [] => Ok []
  | x :: l' => y ← f x; ys ← map_result f l'; Ok (y :: ys)
  end.

(** ** Text *)

Definition ord (c : ascii) : nat := nat_of_ascii c.

Definition between (lo hi n : nat) : bool := (lo <=? n)%nat && (n <=? hi)%nat.

(** [str.lower] on one character: A-Z, and the capital letters of the
    Latin-1 block (U+00C0-U+00DE without the multiplication sign). *)
Definition lower_char (c : ascii) : ascii :=
  let n := ord c in
  if between 65 90 n || (between 192 222 n && negb (n =? 215)%nat)
  then ascii_of_nat (n + 32)
  else c.

Fixpoint lower (s : string) : string :=
  match s with
  | EmptyString => EmptyString
  | String c s' => String (lower_char c) (lower s')
  end.

(** [sep.join(names)] *)
Fixpoint join (sep : string) (names : list string) : string :=
  match names with
  | [] => ""
  | [x] => x
  | x :: rest => x ++ sep ++ join sep rest
  end.

(** ** Floating-point numbers *)

Definition float := spec_float.

Definition prec : Z := 53.
Definition emax : Z := 1024.

Definition neg_inf : float := S754_infinity true.
Definition nan : float := S754_nan.

(** Python's [x < y], [x <= y] and [x >= y] on floats. *)
Definition float_lt (x y : float) : bool := SFltb x y.
Definition float_le (x y : float) : bool := SFleb x y.
Definition float_ge (x y : float) : bool := SFleb y x.

Definition is_nan (x : float) : bool :=
  match x with
  | S754_nan => true
  | _ => false
  end.

(** ** [float(value)] on text

    The steps of CPython's conversion: surrounding white space is
    dropped, underscores are accepted between two digits only, then the
    whole text must be a signed [inf], [infinity] or [nan] (in any case)
    or a decimal literal, which is rounded to the nearest binary64 value,
    ties to even.  A literal too large for binary64 gives an infinity. *)

Definition is_space (c : ascii) : bool :=
  let n := ord c in
  between 9 13 n || (n =? 32)%nat || (n =? 133)%nat || (n =? 160)%nat.

Definition is_digit (c : ascii) : bool := between 48 57 (ord c).

Definition digit_value (c : ascii) : Z := Z.of_nat (ord c - 48).

Fixpoint lstrip (s : list ascii) : list ascii :=
  match s with
  | c :: s' => if is_space c then lstrip s' else s
  | [] => []
  end.

Definition strip (s : list ascii) : list ascii :=
  rev (lstrip (rev (lstrip s))).

Definition is_underscore (c : ascii) : bool := (ord c =? 95)%nat.

(** [prev] is the character before [s], if any. *)
Fixpoint remove_underscores (prev : option ascii) (s : list ascii)
    : option (list ascii) :=
  match s with
  | [] =>
      match prev with
      | Some p => if is_underscore p then None else Some []
      | None => Some []
      end
  | c :: s' =>
      if is_underscore c then
        match prev with
        | Some p => if is_digit p then remove_underscores (Some c) s' else None
        | None => None
        end
      else
        match prev with
        | Some p =>
            if is_underscore p && negb (is_digit c) then None
            else cons c <$> remove_underscores (Some c) s'
        | None => cons c <$> remove_underscores (Some c) s'
        end
  end.

(** The longest prefix of digits, and what follows it. *)
Fixpoint span_digits (s : list ascii) : list ascii * list ascii :=
  match s with
  | c :: s' =>
      if is_digit c then let '(ds, rest) := span_digits s' in (c :: ds, rest)
      else ([], s)
  | [] => ([], [])
  end.

Definition digits_value (ds : list ascii) : Z :=
  fold_left (fun acc c => (10 * acc + digit_value c)%Z) ds 0%Z.

Definition take_sign (s : list ascii) : bool * list ascii :=
  match s with
  | c :: s' =>
      if (ord c =? 45)%nat then (true, s')
      else if (ord c =? 43)%nat then (false, s')
      else (false, s)
  | [] => (false, [])
  end.

Definition lower_chars (s : list ascii) : list ascii := map lower_char s.

(** [m * 10^e], rounded to binary64. *)
Definition round_decimal (neg : bool) (m e : Z) : float :=
  match m with
  | Zpos p =>
      match e with
      | Zneg q =>
          SFdiv prec emax (S754_finite neg p 0)
                (S754_finite false (Pos.pow 10 q) 0)
      | _ => binary_round prec emax neg (Z.to_pos (Zpos p * 10 ^ e)) 0
      end
  | _ => S754_zero neg
  end.

(** The exponent part: nothing, or [e]/[E], an optional sign and at least
    one digit, up to the end of the text. *)
Definition parse_exponent (s : list ascii) : option Z :=
  match s with
  | [] => Some 0%Z
  | c :: s' =>
      if (ord (lower_char c) =? 101)%nat then
        let '(neg, s'') := take_sign s' in
        match span_digits s'' with
        | ((_ :: _) as ds, []) =>
            Some (if neg then (- digits_value ds)%Z else digits_value ds)
        | _ => None
        end
      else None
  end.

Definition parse_decimal (neg : bool) (s : list ascii) : option float :=
  let '(ip, rest) := span_digits s in
  let '(fp, rest') :=
    match rest with
    | c :: r => if (ord c =? 46)%nat then span_digits r else ([], rest)
    | [] => ([], [])
    end in
  match (ip ++ fp)%list with
  | [] => None
  | ds =>
      e ← parse_exponent rest';
      Some (round_decimal neg (digits_value ds) (e - Z.of_nat (List.length fp)))
  end.

Definition chars (s : string) : list ascii := list_ascii_of_string s.

Definition parse_float (s : list ascii) : option float :=
  match strip s with
  | [] => None
  | t =>
      t' ← remove_underscores None t;
      let '(neg, body) := take_sign t' in
      let word := lower_chars body in
      if bool_decide (word = chars "inf") || bool_decide (word = chars "infinity")
      then Some (S754_infinity neg)
      else if bool_decide (word = chars "nan") then Some nan
      else parse_decimal neg body
  end.

(** ** Values and records

    A cell of a record is text, or [None] where [csv.DictReader] met a
    line shorter than the header.  A record is the dict that
    [csv.DictReader] yields: the cells under the header's names and, for
    a line longer than the header, the surplus cells under the key
    [None]. *)

Inductive value :=
  | VStr (s : string)
  | VNone.

#[export] Instance value_eq_dec : EqDecision value.
Proof. solve_decision. Defined.

Record row := Row {
  fields : gmap string value;
  rest : option (list string)
}.

#[export] Instance row_eq_dec : EqDecision row.
Proof. solve_decision. Defined.

(** [dict(pairs)]: a later pair replaces an earlier one with its key. *)
Definition dict {V} (pairs : list (string * V)) : gmap string V :=
  fold_left (fun d kv => <[kv.1 := kv.2]> d) pairs ∅.

(** [row.get(key, default)] for a text key. *)
Definition row_get (r : row) (key : string) (default : value) : value :=
  match fields r !! key with
  | Some v => v
  | None => default
  end.

(** [float(value)]: [TypeError] on [None], [ValueError] on text that is
    not a number. *)
Definition py_float (v : value) : result float :=
  match v with
  | VStr s =>
      match parse_float (chars s) with
      | Some x => Ok x
      | None => Raise ValueError
      end
  | VNone => Raise TypeError
  end.

(** ** [sorted]

    [list.sort] decorates each item with its key, sorts the decorated
    list with a stable sort that compares keys by [<] only, and for
    [reverse=True] reverses the list before and after sorting, which
    keeps equal keys in their input order.  Where [<] orders the keys
    present (no NaN among them) a stable sort has one possible result, so
    the insertion sort below returns the list that CPython returns
    ([stable_sort_unique]); with NaN keys it returns what CPython returns
    on the short lists used as examples here. *)

Section ListSort.
Context {K A : Type}.
Variable lt : K -> K -> bool.

Fixpoint insort (x : K * A) (l : list (K * A)) : list (K * A) :=
  match l with
  | [] => [x]
  | y :: l' => if lt y.1 x.1 then y :: insort x l' else x :: y :: l'
  end.

Fixpoint sort_asc (l : list (K * A)) : list (K * A) :=
  match l with
  | [] => []
  | x :: l' => insort x (sort_asc l')
  end.

Definition list_sort (reverse : bool) (l : list (K * A)) : list (K * A) :=
  if reverse then list.reverse (sort_asc (list.reverse l))
  else sort_asc l.
End ListSort.

(** [sorted(iterable, key=key, reverse=reverse)] with float keys.  The
    key function runs once on every item, in order, before any
    comparison; an exception it raises ends the call. *)
Definition sorted {A} (iterable : list A) (key : A -> result float)
    (reverse : bool) : result (list A) :=
  keys ← map_result key iterable;
  Ok (snd <$> list_sort float_lt reverse (zip keys iterable)).

(** ** The script's functions *)

Definition resolve_qed_field (fieldnames : list string) (desired : string)
    : result string :=
  let mapping := dict ((fun name => (lower name, name)) <$> fieldnames) in
  let key := lower desired in
  match mapping !! key with
  | None =>
      let available := join ", " fieldnames in
      Raise (SystemExit ("QED column '" ++ desired
                         ++ "' not found. Available columns: " ++ available))
  | Some name => Ok name
  end.

Definition parse_qed_value (v : value) : result float :=
  try_except (py_float v)
    (fun e => match e with TypeError | ValueError => true | _ => false end)
    (Ok neg_inf).

Definition sort_rows (rows : list row) (qed_key : string) : result (list row) :=
  sorted rows (fun r => parse_qed_value (row_get r qed_key (VStr ""))) true.

(** ** [sort_rows] on objects

    Python lists and dicts are objects reached through references.  The
    store maps a reference to the object it names; [sorted] reads the
    list it is given and allocates the list it returns. *)

Definition loc := positive.

Inductive object :=
  | Dict (d : row)
  | List (items : list loc).

Definition alloc (h : gmap loc object) (o : object) : gmap loc object * loc :=
  let l := fresh (dom h) in (<[l := o]> h, l).

Module Heap.

(** The key function of [sort_rows] on a reference. *)
Definition qed_of (h : gmap loc object) (qed_key : string) (l : loc)
    : result float :=
  match h !! l with
  | Some (Dict d) => parse_qed_value (row_get d qed_key (VStr ""))
  | _ => Raise AttributeError
  end.

Definition sort_rows (h : gmap loc object) (rows : loc) (qed_key : string)
    : result (gmap loc object * loc) :=
  match h !! rows with
  | Some (List items) =>
      out ← sorted items (qed_of h qed_key) true;
      Ok (alloc h (List out))
  | _ => Raise TypeError
  end.

(** The records a list of references names. *)
Definition deref (h : gmap loc object) (items : list loc) : option (list row) :=
  mapM (fun l => match h !! l with
                 | Some (Dict d) => Some d
                 | _ => None
                 end) items.

End Heap.

(** ** Files and the [csv] module

    A CSV file is the list of records that [csv.reader] yields for its
    text, each a list of cells, a blank line being the empty record;
    [csv.writer] produces the text of such a list.  Paths are taken as
    written.  Directories, permissions and encodings are not modelled:
    opening an existing file and creating the output's parent directory
    succeed. *)

Record world := World {
  files : gmap string (list (list string));
  stdout : list string
}.

(** A command runs on the world and leaves a world behind, also when it
    raises. *)
Definition io (A : Type) : Type := world -> result A * world.

#[export] Instance io_ret : MRet io := fun A a w => (Ok a, w).

#[export] Instance io_bind : MBind io := fun A B k m w =>
  match m w with
  | (Ok a, w') => k a w'
  | (Raise e, w') => (Raise e, w')
  end.

Definition raise {A} (e : exn) : io A := fun w => (Raise e, w).

Definition lift {A} (r : result A) : io A := fun w => (r, w).

(** [path.exists()] *)
Definition path_exists (path : string) : io bool :=
  fun w => (Ok (bool_decide (is_Some (files w !! path))), w).

(** The records of the file at [path], read through [csv.reader]. *)
Definition read_records (path : string) : io (list (list string)) :=
  fun w => match files w !! path with
           | Some f => (Ok f, w)
           | None => (Raise FileNotFoundError, w)
           end.

(** [path.parent.mkdir(parents=True, exist_ok=True)]: directories are not
    part of the world, and the call changes no file. *)
Definition mkdir_parent (path : string) : io unit := mret ().

(** [path.open("w")]: the file is created, or emptied if it exists. *)
Definition open_write (path : string) : io unit :=
  fun w => (Ok (), World (<[path := []]> (files w)) (stdout w)).

(** [csv.writer(f).writerow(record)] on the file open at [path]. *)
Definition writer_writerow (path : string) (record : list string) : io unit :=
  fun w =>
    let old := default [] (files w !! path) in
    (Ok (), World (<[path := (old ++ [record])%list]> (files w)) (stdout w)).

Definition print (line : string) : io unit :=
  fun w => (Ok (), World (files w) (stdout w ++ [line])%list).

(** [csv.DictReader]: the header is the first record of the file, and
    there is none in a file without records. *)
Definition DictReader_fieldnames (f : list (list string)) : option (list string) :=
  head f.

(** The dict of one line: the cells under the header's names; surplus
    cells under the key [None]; [None] for the names a short line leaves
    without a cell. *)
Definition DictReader_row (fieldnames record : list string) : row :=
  let d := dict (zip fieldnames (VStr <$> record)) in
  let lf := List.length fieldnames in
  let lr := List.length record in
  if (lf <? lr)%nat then Row d (Some (drop lf record))
  else Row (fold_left (fun d key => <[key := VNone]> d) (drop lr fieldnames) d) None.

(** [list(reader)] once the header is read: blank lines are skipped. *)
Definition DictReader_rows (fieldnames : list string) (f : list (list string))
    : list row :=
  DictReader_row fieldnames <$> filter (fun record => record ≠ []) (tail f).

(** The text [csv.writer] writes for a cell. *)
Definition cell_text (v : value) : string :=
  match v with
  | VStr s => s
  | VNone => ""
  end.

(** [DictWriter._dict_to_list] with the default [extrasaction="raise"]
    and [restval=""]: a dict with a key that is not a field name is
    refused. *)
Definition dict_to_list (fieldnames : list string) (rowdict : row)
    : result (list string) :=
  if bool_decide (rest rowdict = None
                  ∧ dom (fields rowdict) ⊆ list_to_set (C := gset string) fieldnames)
  then Ok ((fun key => cell_text (row_get rowdict key (VStr ""))) <$> fieldnames)
  else Raise ValueError.

Definition DictWriter_writerow (path : string) (fieldnames : list string)
    (rowdict : row) : io unit :=
  record ← lift (dict_to_list fieldnames rowdict);
  writer_writerow path record.

Definition DictWriter_writeheader (path : string) (fieldnames : list string)
    : io unit :=
  let header := Row (dict (zip fieldnames (VStr <$> fieldnames))) None in
  DictWriter_writerow path fieldnames header.

(** [writerows] converts and writes one dict after the other. *)
Fixpoint DictWriter_writerows (path : string) (fieldnames : list string)
    (rowdicts : list row) : io unit :=
  match rowdicts with
  | [] => mret ()
  | r :: rs =>
      DictWriter_writerow path fieldnames r;;
      DictWriter_writerows path fieldnames rs
  end.

(** ** [main] *)

(** The namespace [parse_args] returns. *)
Record Namespace := {
  input : string;
  output : string;
  qed_field : string
}.

(** The namespace of a command line without options. *)
Definition default_args : Namespace :=
  {| input := "kaggle_zinc_filtered.csv";
     output := "kaggle_zinc_filtered_sorted.csv";
     qed_field := "qed" |}.

Definition main (args : Namespace) : io unit :=
  let input_path := input args in
  let output_path := output args in
  found ← path_exists input_path;
  if negb found then raise (SystemExit ("Input file not found: " ++ input_path))
  else
    f ← read_records input_path;
    match DictReader_fieldnames f with
    | None => raise (SystemExit "Input CSV is missing a header row.")
    | Some fieldnames =>
        qed_field ← lift (resolve_qed_field fieldnames (qed_field args));
        let rows := DictReader_rows fieldnames f in
        sorted_rows ← lift (sort_rows rows qed_field);
        mkdir_parent output_path;;
        open_write output_path;;
        DictWriter_writeheader output_path fieldnames;;
        DictWriter_writerows output_path fieldnames sorted_rows;;
        print ("Wrote " ++ pretty (List.length sorted_rows) ++ " rows sorted by '"
               ++ qed_field ++ "' (desc) to " ++ output_path)
    end.

(** ** Vocabulary of the statements and proofs *)

(** [SFcompare] is the comparison of a rank: the sign class first, then
    exponent and mantissa, read downwards for negative numbers. *)
Definition rank (x : float) : Z * Z * Z :=
  match x with
  | S754_infinity true => (-2, 0, 0)
  | S754_finite true m e => (-1, - e, - Zpos m)
  | S754_zero _ => (0, 0, 0)
  | S754_finite false m e => (1, e, Zpos m)
  | S754_infinity false => (2, 0, 0)
  | S754_nan => (3, 0, 0)
  end%Z.

Definition rank_compare (a b : Z * Z * Z) : comparison :=
  match (a.1.1 ?= b.1.1)%Z with
  | Eq =>
      match (a.1.2 ?= b.1.2)%Z with
      | Eq => (a.2 ?= b.2)%Z
      | c => c
      end
  | c => c
  end.

Definition lex_lt (a b : Z * Z * Z) : Prop :=
  (a.1.1 < b.1.1 \/ (a.1.1 = b.1.1 /\
    (a.1.2 < b.1.2 \/ (a.1.2 = b.1.2 /\ a.2 < b.2))))%Z.

(** [x] may stand before [y] in a list sorted upwards: the key of [y] is
    not below the key of [x]. *)
Definition may_precede {K A} (lt : K -> K -> bool) (x y : K * A) : Prop :=
  lt y.1 x.1 = false.

(** The items whose key [lt] orders neither before nor after [k]. *)
Definition same_class {K A} (lt : K -> K -> bool) (k : K) (p : K * A) : Prop :=
  lt p.1 k = false /\ lt k p.1 = false.

#[export] Instance same_class_dec {K A} (lt : K -> K -> bool) (k : K) (p : K * A) :
  Decision (same_class lt k p).
Proof. unfold same_class. apply _. Defined.

(** Sorting by a key function that cannot raise. *)
Definition sort_by {A} (f : A -> float) (reverse : bool) (l : list A) : list A :=
  snd <$> list_sort float_lt reverse ((fun x => (f x, x)) <$> l).

(** The number [sort_rows] orders a record by. *)
Definition qed_number (qed_key : string) (r : row) : float :=
  match py_float (row_get r qed_key (VStr "")) with
  | Ok x => x
  | Raise _ => neg_inf
  end.

(** The record has no number under the key: the cell is missing, [None]
    or text that [float] refuses. *)
Definition unparseable (qed_key : string) (r : row) : bool :=
  match py_float (row_get r qed_key (VStr "")) with
  | Ok _ => false
  | Raise _ => true
  end.

(** The records are in descending order of their numbers. *)
Definition descending (qed_key : string) (out : list row) : Prop :=
  forall (i j : nat) (ri rj : row),
    (i < j)%nat -> out !! i = Some ri -> out !! j = Some rj ->
    float_ge (qed_number qed_key ri) (qed_number qed_key rj) = true.

(** A record is behind every record it must follow: one without a number
    comes after every one that [float] accepts. *)
Definition unparseable_after_valid (qed_key : string) (out : list row) : Prop :=
  forall (i j : nat) (ri rj : row),
    out !! i = Some ri -> out !! j = Some rj ->
    unparseable qed_key ri = true -> unparseable qed_key rj = false ->
    (j < i)%nat.

(** The same with negative infinity left out of the numbers. *)
Definition unparseable_after_greater (qed_key : string) (out : list row) : Prop :=
  forall (i j : nat) (ri rj : row),
    out !! i = Some ri -> out !! j = Some rj ->
    unparseable qed_key ri = true ->
    float_lt neg_inf (qed_number qed_key rj) = true ->
    (j < i)%nat.

(** A record with the one column [qed]. *)
Definition qed_row (cell : string) : row := Row {[ "qed" := VStr cell ]} None.

(** The record a reference names, the empty record for a reference to
    anything else. *)
Definition row_at (h : gmap loc object) (l : loc) : row :=
  match h !! l with
  | Some (Dict d) => d
  | _ => Row ∅ None
  end.

(** The text [s] occurs in the text [msg]. *)
Definition occurs_in (s msg : string) : Prop :=
  exists pre post : string, msg = pre ++ s ++ post.

(** The records [writerows] writes: those of the dicts before the first
    one that [dict_to_list] refuses. *)
Fixpoint written (fieldnames : list string) (rowdicts : list row)
    : list (list string) :=
  match rowdicts with
  | [] => []
  | r :: rs =>
      match dict_to_list fieldnames r with
      | Ok record => record :: written fieldnames rs
      | Raise _ => []
      end
  end.

(** The structural errors of a run, each with the message of its exit:
    no file at the input path, a file without a header, a header without
    the requested column. *)
Inductive structural_error (args : Namespace) (w : world) : string -> Prop :=
  | InputNotFound :
      files w !! input args = None ->
      structural_error args w ("Input file not found: " ++ input args)
  | MissingHeader :
      files w !! input args = Some [] ->
      structural_error args w "Input CSV is missing a header row."
  | ColumnNotFound (fieldnames : list string) (records : list (list string)) :
      files w !! input args = Some (fieldnames :: records) ->
      (forall name, name ∈ fieldnames -> lower name ≠ lower (qed_field args)) ->
      structural_error args w
        ("QED column '" ++ qed_field args
         ++ "' not found. Available columns: " ++ join ", " fieldnames).

(** Python's [x == y] on floats. *)
Definition float_eq (x y : float) : bool := SFeqb x y.

(** No record of the list has NaN for its number. *)
Definition no_nan (qed_key : string) (rows : list row) : Prop :=
  Forall (fun r => is_nan (qed_number qed_key r) = false) rows.

(** The cell reads [nan]: that word in any letter case, after an optional
    sign, with white space around it at most. *)
Definition spells_nan (s : string) : bool :=
  bool_decide (lower_chars (take_sign (strip (chars s))).2 = chars "nan").

(** Neither a digit nor an underscore. *)
Definition plain (c : ascii) : Prop := is_digit c = false /\ is_underscore c = false.

(** The cells [DictWriter] writes for a dict it accepts. *)
Definition record_of (fieldnames : list string) (r : row) : list string :=
  (fun key => cell_text (row_get r key (VStr ""))) <$> fieldnames.

(** The line a successful run prints. *)
Definition summary (count : nat) (column output_path : string) : string :=
  "Wrote " ++ pretty count ++ " rows sorted by '" ++ column
  ++ "' (desc) to " ++ output_path.

(** * Properties *)

(** ** The order of floats *)

Lemma pos_compare_cont_eq (m1 m2 : positive) :
  Pos.compare_cont Eq m1 m2 = (m1 ?= m2)%positive.
Proof. reflexivity. Qed.

Lemma SFcompare_rank (x y : float) :
  is_nan x = false -> is_nan y = false ->
  SFcompare x y = Some (rank_compare (rank x) (rank y)).
Proof.
  destruct x as [sx|sx| |sx mx ex], y as [sy|sy| |sy my ey];
    try discriminate; intros _ _;
    try (destruct sx; destruct sy; reflexivity);
    try (destruct sx; reflexivity); try (destruct sy; reflexivity).
  destruct sx, sy; try reflexivity; unfold rank_compare;
    cbn [rank fst snd SFcompare]; rewrite pos_compare_cont_eq.
  rewrite Z.compare_refl, Z.compare_opp, (Z.compare_antisym ex ey).
  destruct (ex ?= ey)%Z; reflexivity.
Qed.

Lemma rank_compare_Lt a b : rank_compare a b = Lt <-> lex_lt a b.
Proof.
  destruct a as [[a1 a2] a3], b as [[b1 b2] b3].
  unfold rank_compare, lex_lt; cbn [fst snd].
  destruct (Z.compare_spec a1 b1), (Z.compare_spec a2 b2),
    (Z.compare_spec a3 b3); split; intros; try discriminate;
    try reflexivity; lia.
Qed.

Lemma rank_compare_Gt a b : rank_compare a b = Gt <-> lex_lt b a.
Proof.
  destruct a as [[a1 a2] a3], b as [[b1 b2] b3].
  unfold rank_compare, lex_lt; cbn [fst snd].
  destruct (Z.compare_spec a1 b1), (Z.compare_spec a2 b2),
    (Z.compare_spec a3 b3); split; intros; try discriminate;
    try reflexivity; lia.
Qed.

Lemma float_lt_spec (x y : float) :
  float_lt x y = true <->
  is_nan x = false /\ is_nan y = false /\ lex_lt (rank x) (rank y).
Proof.
  unfold float_lt, SFltb.
  destruct (is_nan x) eqn:Hx.
  { destruct x; try discriminate. cbn. intuition discriminate. }
  destruct (is_nan y) eqn:Hy.
  { destruct y; try discriminate. destruct x; cbn; intuition discriminate. }
  rewrite SFcompare_rank by assumption. rewrite <- rank_compare_Lt.
  destruct (rank_compare (rank x) (rank y)); intuition discriminate.
Qed.

Lemma float_le_spec (x y : float) :
  float_le x y = true <->
  is_nan x = false /\ is_nan y = false /\ ~ lex_lt (rank y) (rank x).
Proof.
  unfold float_le, SFleb.
  destruct (is_nan x) eqn:Hx.
  { destruct x; try discriminate. cbn. intuition discriminate. }
  destruct (is_nan y) eqn:Hy.
  { destruct y; try discriminate. destruct x; cbn; intuition discriminate. }
  rewrite SFcompare_rank by assumption. rewrite <- rank_compare_Gt.
  destruct (rank_compare (rank x) (rank y)); intuition (discriminate || auto).
Qed.

Ltac lex_solve :=
  repeat match goal with
    | x : (Z * Z * Z)%type |- _ => destruct x as [[? ?] ?]
    end;
  unfold lex_lt in *; cbn [fst snd] in *; lia.

Lemma float_lt_asym (x y : float) : float_lt x y = true -> float_lt y x = false.
Proof.
  intros H. apply not_true_is_false. intros H'.
  apply float_lt_spec in H as (_ & _ & H), H' as (_ & _ & H').
  generalize dependent (rank x). generalize dependent (rank y).
  intros; lex_solve.
Qed.

Lemma float_lt_le (x y : float) : float_lt x y = true -> float_le x y = true.
Proof.
  intros (Hx & Hy & H)%float_lt_spec. apply float_le_spec.
  repeat split; try assumption.
  generalize dependent (rank x). generalize dependent (rank y).
  intros; lex_solve.
Qed.

Lemma float_le_trans (x y z : float) :
  float_le x y = true -> float_le y z = true -> float_le x z = true.
Proof.
  intros (Hx & Hy & H)%float_le_spec (_ & Hz & H')%float_le_spec.
  apply float_le_spec. repeat split; try assumption.
  generalize dependent (rank x). generalize dependent (rank y).
  generalize dependent (rank z). intros; lex_solve.
Qed.

Lemma float_not_lt_le (x y : float) :
  is_nan x = false -> is_nan y = false ->
  float_lt y x = false -> float_le x y = true.
Proof.
  intros Hx Hy H. apply float_le_spec. repeat split; try assumption.
  intros Hlt. apply not_true_iff_false in H. apply H.
  apply float_lt_spec. auto.
Qed.

Lemma float_le_not_lt (x y : float) : float_le x y = true -> float_lt y x = false.
Proof.
  intros (Hx & Hy & H)%float_le_spec. apply not_true_is_false.
  intros (_ & _ & H')%float_lt_spec. contradiction.
Qed.

(** ** The insertion sort behind [sorted] *)

Section ListSortFacts.
Context {K A : Type} (lt : K -> K -> bool).
Implicit Types (x y : K * A) (l : list (K * A)).

Lemma insort_perm x l : insort lt x l ≡ₚ x :: l.
Proof.
  induction l as [|y l IH]; simpl; [done|].
  destruct (lt y.1 x.1); [|done].
  rewrite IH. apply perm_swap.
Qed.

Lemma sort_asc_perm l : sort_asc lt l ≡ₚ l.
Proof.
  induction l as [|x l IH]; simpl; [done|].
  by rewrite insort_perm, IH.
Qed.

Lemma list_sort_perm reverse l : list_sort lt reverse l ≡ₚ l.
Proof.
  destruct reverse; simpl; [|apply sort_asc_perm].
  by rewrite reverse_Permutation, sort_asc_perm, reverse_Permutation.
Qed.

(** A list without a descent between neighbours is left as it is. *)
Lemma sort_asc_fixed l : Sorted (may_precede lt) l -> sort_asc lt l = l.
Proof.
  induction 1 as [|x l _ IH Hhd]; simpl; [done|].
  rewrite IH. destruct Hhd as [|y l Hxy]; simpl; [done|].
  unfold may_precede in Hxy. by rewrite Hxy.
Qed.

(** Stability: items of a class no two members of which are ordered by
    [lt] keep their places relative to each other. *)
Section Stable.
Context (Q : K * A -> Prop) `{Qdec : !forall x, Decision (Q x)}.

Lemma insort_filter x l :
  (forall y, y ∈ l -> Q x -> Q y -> lt y.1 x.1 = false) ->
  filter Q (insort lt x l) = filter Q (x :: l).
Proof.
  induction l as [|y l IH]; intros Hcls; simpl; [done|].
  destruct (lt y.1 x.1) eqn:Hlt; [|done].
  rewrite filter_cons, IH by (intros; apply Hcls; [by right|done..]).
  rewrite !filter_cons.
  destruct (decide (Q y)) as [Hy|Hy]; [|done].
  destruct (decide (Q x)) as [Hx|Hx]; [|done].
  rewrite Hcls in Hlt; [done|by left|done..].
Qed.

Lemma sort_asc_filter l :
  (forall x y, x ∈ l -> y ∈ l -> Q x -> Q y -> lt x.1 y.1 = false) ->
  filter Q (sort_asc lt l) = filter Q l.
Proof.
  induction l as [|x l IH]; intros Hcls; simpl; [done|].
  rewrite insort_filter.
  - rewrite !filter_cons, IH; [done|].
    intros y z Hy Hz. apply Hcls; by right.
  - intros y Hy Qx Qy. rewrite sort_asc_perm in Hy.
    apply Hcls; [by right|by left|done..].
Qed.

Lemma list_sort_filter reverse l :
  (forall x y, x ∈ l -> y ∈ l -> Q x -> Q y -> lt x.1 y.1 = false) ->
  filter Q (list_sort lt reverse l) = filter Q l.
Proof.
  intros Hcls. destruct reverse; simpl; [|by apply sort_asc_filter].
  rewrite filter_reverse, sort_asc_filter, filter_reverse.
  - apply reverse_involutive.
  - intros x y Hx Hy. rewrite elem_of_reverse in Hx, Hy. by apply Hcls.
Qed.
End Stable.

(** With an asymmetric [lt] the result has no descent between
    neighbours, so sorting it again changes nothing.  This needs no
    totality of [lt]; it is a fact about [sort_asc], and says nothing of
    another sorting algorithm on keys that [lt] does not order. *)
Section Asymmetric.
Hypothesis lt_asym : forall a b, lt a b = true -> lt b a = false.

Lemma HdRel_insort x y l :
  may_precede lt y x -> HdRel (may_precede lt) y l ->
  HdRel (may_precede lt) y (insort lt x l).
Proof.
  intros Hyx [|z l' Hyz]; simpl; [by constructor|].
  destruct (lt z.1 x.1); by constructor.
Qed.

Lemma insort_Sorted x l :
  Sorted (may_precede lt) l -> Sorted (may_precede lt) (insort lt x l).
Proof.
  induction 1 as [|y l Hl IH Hhd]; simpl; [by repeat constructor|].
  destruct (lt y.1 x.1) eqn:Hlt.
  - constructor; [done|]. apply HdRel_insort; [|done].
    by apply lt_asym.
  - constructor; [by constructor|]. by constructor.
Qed.

Lemma sort_asc_Sorted l : Sorted (may_precede lt) (sort_asc lt l).
Proof. induction l; simpl; [constructor|by apply insort_Sorted]. Qed.

Lemma sort_asc_idem l : sort_asc lt (sort_asc lt l) = sort_asc lt l.
Proof. apply sort_asc_fixed, sort_asc_Sorted. Qed.

Lemma list_sort_idem reverse l :
  list_sort lt reverse (list_sort lt reverse l) = list_sort lt reverse l.
Proof.
  destruct reverse; simpl; [|apply sort_asc_idem].
  by rewrite reverse_involutive, sort_asc_idem.
Qed.
End Asymmetric.

(** Where the keys present are totally preordered by [lt], with [le]
    the order it induces, the result is sorted in the strong sense. *)
Section Total.
Context (le : K -> K -> Prop) (ok : K -> Prop).
Hypothesis le_trans : forall a b c, le a b -> le b c -> le a c.
Hypothesis lt_le : forall a b, lt a b = true -> le a b.
Hypothesis not_lt_le : forall a b, ok a -> ok b -> lt b a = false -> le a b.

Let le1 x y := le x.1 y.1.

Lemma insort_StronglySorted x l :
  ok x.1 -> Forall (fun y => ok y.1) l ->
  StronglySorted le1 l -> StronglySorted le1 (insort lt x l).
Proof.
  intros Hx Hok Hl. induction Hl as [|y l Hl IH Hy]; simpl.
  { repeat constructor. }
  apply Forall_cons in Hok as [Hoky Hok].
  destruct (lt y.1 x.1) eqn:Hlt.
  - constructor; [by apply IH|].
    rewrite insort_perm. constructor; [by apply lt_le|done].
  - assert (le1 x y) by (by apply not_lt_le).
    constructor; [by constructor|]. constructor; [done|].
    eapply Forall_impl; [exact Hy|]. intros z Hz. by eapply le_trans.
Qed.

Lemma sort_asc_StronglySorted l :
  Forall (fun y => ok y.1) l -> StronglySorted le1 (sort_asc lt l).
Proof.
  induction 1 as [|x l Hx Hl IH]; simpl; [constructor|].
  apply insort_StronglySorted; [done| |done].
  by rewrite sort_asc_perm.
Qed.

(** A stable sort has one possible result: a sorted list in which
    the items of each class stand in their input order is the one
    [sort_asc] returns. *)
Hypothesis le_not_lt : forall a b, le a b -> lt b a = false.

Lemma lt_irrefl a : lt a a = false.
Proof.
  destruct (lt a a) eqn:Haa; [|done].
  pose proof (le_not_lt _ _ (lt_le _ _ Haa)) as Hn. congruence.
Qed.

Lemma sorted_stable_eq l1 l2 :
  StronglySorted le1 l1 -> StronglySorted le1 l2 ->
  Forall (fun y => ok y.1) l1 ->
  l1 ≡ₚ l2 ->
  (forall k, ok k -> filter (same_class lt k) l1 = filter (same_class lt k) l2) ->
  l1 = l2.
Proof.
  intros Hs1. revert l2.
  induction Hs1 as [|x l1 Hs1 IH Hx]; intros l2 Hs2 Hok Hp Hf.
  { symmetry. by apply Permutation_nil. }
  destruct Hs2 as [|y l2 Hs2 Hy]; [by apply Permutation_nil_r in Hp|].
  apply Forall_cons in Hok as [Hokx Hok].
  assert (same_class lt x.1 x) as Hxx by (split; apply lt_irrefl).
  assert (same_class lt x.1 y) as Hxy.
  { destruct (decide (same_class lt x.1 y)) as [|Hn]; [done|].
    assert (x ≠ y) as Hne by (by intros <-).
    assert (x ∈ l2) as Hx2.
    { assert (x ∈ y :: l2) as Hin by (rewrite <- Hp; left).
      by apply elem_of_cons in Hin as [?|?]. }
    assert (y ∈ l1) as Hy1.
    { assert (y ∈ x :: l1) as Hin by (rewrite Hp; left).
      apply elem_of_cons in Hin as [?|?]; [congruence|done]. }
    rewrite Forall_forall in Hx, Hy.
    split; apply le_not_lt; [by apply Hx|by apply Hy]. }
  assert (x = y) as <-.
  { specialize (Hf x.1 Hokx). rewrite !filter_cons in Hf.
    destruct (decide (same_class lt x.1 x)); [|done].
    destruct (decide (same_class lt x.1 y)); [|done]. congruence. }
  f_equal. apply IH; [done..|by apply (inj (cons x))|].
  intros k Hk. specialize (Hf k Hk). rewrite !filter_cons in Hf.
  destruct (decide (same_class lt k x)); congruence.
Qed.

Lemma stable_sort_unique l l' :
  Forall (fun y => ok y.1) l ->
  l' ≡ₚ l ->
  StronglySorted le1 l' ->
  (forall k, ok k -> filter (same_class lt k) l' = filter (same_class lt k) l) ->
  l' = sort_asc lt l.
Proof.
  intros Hok Hp Hs Hf. symmetry.
  apply sorted_stable_eq; [by apply sort_asc_StronglySorted|done| | |].
  - by rewrite sort_asc_perm.
  - by rewrite sort_asc_perm, Hp.
  - intros k Hk. rewrite Hf by done. apply sort_asc_filter.
    intros x y Hx Hy [Hxk Hkx] [Hyk Hky].
    rewrite Forall_forall in Hok.
    apply le_not_lt, (le_trans _ k); apply not_lt_le; auto.
Qed.
End Total.
End ListSortFacts.

(** ** Lists: auxiliary facts *)

Lemma StronglySorted_lookup {A} (R : relation A) (l : list A) i j a b :
  StronglySorted R l -> (i < j)%nat ->
  l !! i = Some a -> l !! j = Some b -> R a b.
Proof.
  intros Hl. revert i j. induction Hl as [|x l Hl IH Hx]; intros i j Hij Hi Hj.
  { by rewrite lookup_nil in Hi. }
  destruct j as [|j]; [lia|]. destruct i as [|i]; simplify_eq/=.
  - rewrite Forall_forall in Hx. apply Hx. by eapply list_elem_of_lookup_2.
  - apply (IH i j); [lia|done..].
Qed.

Lemma filter_fmap {A B} (g : A -> B) (Q : B -> Prop)
    `{!forall y, Decision (Q y)} (l : list A) :
  filter Q (g <$> l) = g <$> filter (Q ∘ g) l.
Proof.
  induction l as [|x l IH]; [done|].
  rewrite fmap_cons, !filter_cons, IH. unfold compose.
  by destruct (decide (Q (g x))).
Qed.

Lemma map_result_ok {A B} (f : A -> result B) (g : A -> B) (l : list A) :
  (forall x, x ∈ l -> f x = Ok (g x)) -> map_result f l = Ok (g <$> l).
Proof.
  induction l as [|x l IH]; intros H; simpl; [done|].
  rewrite H by left. cbn. rewrite IH; [done|].
  intros y Hy. apply H. by right.
Qed.

Lemma zip_decorate {A B} (g : A -> B) (l : list A) :
  zip (g <$> l) l = (fun x => (g x, x)) <$> l.
Proof. induction l; [done|]. cbn. by f_equal. Qed.

(** ** [sorted] with a key function that does not raise *)

Lemma sorted_sort_by {A} (key : A -> result float) (f : A -> float)
    (reverse : bool) (l : list A) :
  (forall x, x ∈ l -> key x = Ok (f x)) ->
  sorted l key reverse = Ok (sort_by f reverse l).
Proof.
  intros H. unfold sorted, sort_by.
  rewrite (map_result_ok key f) by done. cbn. by rewrite zip_decorate.
Qed.

Section SortByFacts.
Context {A : Type} (f : A -> float).
Implicit Types (l : list A) (D : list (float * A)).

Let dec l : list (float * A) := (fun x => (f x, x)) <$> l.
Let decorated D : Prop := Forall (fun p => p.1 = f p.2) D.

Lemma snd_dec l : snd <$> dec l = l.
Proof.
  unfold dec. rewrite <- list_fmap_compose.
  rewrite <- (list_fmap_id l) at 2. by apply list_fmap_ext.
Qed.

Lemma dec_decorated l : decorated (dec l).
Proof. unfold decorated, dec. rewrite Forall_fmap. by apply Forall_true. Qed.

Lemma list_sort_decorated reverse l :
  decorated (list_sort float_lt reverse (dec l)).
Proof. unfold decorated. rewrite list_sort_perm. apply dec_decorated. Qed.

Lemma dec_snd D : decorated D -> dec (snd <$> D) = D.
Proof.
  unfold dec. induction 1 as [|[k x] D Hk _ IH]; [done|].
  cbn in *. rewrite IH. by subst.
Qed.

Lemma sort_by_perm reverse l : sort_by f reverse l ≡ₚ l.
Proof.
  unfold sort_by. fold (dec l). by rewrite list_sort_perm, snd_dec.
Qed.

Lemma sort_by_length reverse l : length (sort_by f reverse l) = length l.
Proof. by rewrite sort_by_perm. Qed.

Lemma sort_by_idem reverse l :
  sort_by f reverse (sort_by f reverse l) = sort_by f reverse l.
Proof.
  unfold sort_by. fold (dec l).
  fold (dec (snd <$> list_sort float_lt reverse (dec l))).
  rewrite dec_snd by apply list_sort_decorated.
  by rewrite list_sort_idem by apply float_lt_asym.
Qed.

(** Stability of [sorted]. *)
Lemma sort_by_filter (Q : A -> Prop) `{!forall x, Decision (Q x)} reverse l :
  (forall x y, x ∈ l -> y ∈ l -> Q x -> Q y -> float_lt (f x) (f y) = false) ->
  filter Q (sort_by f reverse l) = filter Q l.
Proof.
  intros Hcls. unfold sort_by. fold (dec l).
  rewrite filter_fmap, list_sort_filter.
  - by rewrite <- filter_fmap, snd_dec.
  - intros [k x] [k' y] [x' [[= -> ->] Hx]]%list_elem_of_fmap
      [y' [[= -> ->] Hy]]%list_elem_of_fmap. cbn. by apply Hcls.
Qed.

(** Without NaN keys the result of a descending sort descends. *)
Lemma sort_by_descending l i j xi xj :
  Forall (fun x => is_nan (f x) = false) l ->
  (i < j)%nat ->
  sort_by f true l !! i = Some xi -> sort_by f true l !! j = Some xj ->
  float_ge (f xi) (f xj) = true.
Proof.
  intros Hok Hij Hi Hj. unfold sort_by in Hi, Hj. fold (dec l) in Hi, Hj.
  pose proof (list_sort_decorated true l) as Hdec.
  apply list_lookup_fmap_Some in Hi as ([ki yi] & -> & Hi).
  apply list_lookup_fmap_Some in Hj as ([kj yj] & -> & Hj).
  pose proof (Forall_lookup_1 _ _ _ _ Hdec Hi) as Hki.
  pose proof (Forall_lookup_1 _ _ _ _ Hdec Hj) as Hkj.
  cbn in Hki, Hkj, Hi, Hj |- *. subst ki kj.
  apply reverse_lookup_Some in Hi as [Hi Hli], Hj as [Hj Hlj].
  assert (StronglySorted (fun x y : float * A => float_le x.1 y.1 = true)
            (sort_asc float_lt (reverse (dec l)))) as Hs.
  { apply (sort_asc_StronglySorted float_lt (fun a b => float_le a b = true)
             (fun a => is_nan a = false)).
    - apply float_le_trans.
    - apply float_lt_le.
    - apply float_not_lt_le.
    - rewrite reverse_Permutation. unfold dec. by rewrite Forall_fmap. }
  change (float_le (f yj, yj).1 (f yi, yi).1 = true).
  eapply (StronglySorted_lookup _ _ _ _ _ _ Hs); [|exact Hj|exact Hi].
  lia.
Qed.
End SortByFacts.

(** On float keys without NaN, every stable sort agrees with [sort_asc]:
    a list that holds the same items, ascends, and keeps the items of
    equal key in their input order is the list [sort_asc] returns. *)
Lemma sort_asc_float_unique {A} (l l' : list (float * A)) :
  Forall (fun y => is_nan y.1 = false) l ->
  l' ≡ₚ l ->
  StronglySorted (fun x y => float_le x.1 y.1 = true) l' ->
  (forall k, is_nan k = false ->
     filter (same_class float_lt k) l' = filter (same_class float_lt k) l) ->
  l' = sort_asc float_lt l.
Proof.
  apply (stable_sort_unique float_lt (fun a b => float_le a b = true)
           (fun a => is_nan a = false)).
  - apply float_le_trans.
  - apply float_lt_le.
  - apply float_not_lt_le.
  - apply float_le_not_lt.
Qed.

(** [sorted] commutes with a renaming of the items that keeps keys: this
    relates sorting references to sorting the records they name. *)
Lemma insort_fmap {K A B} (lt : K -> K -> bool) (g : A -> B) x (l : list (K * A)) :
  prod_map id g <$> insort lt x l = insort lt (prod_map id g x) (prod_map id g <$> l).
Proof.
  induction l as [|y l IH]; [done|].
  rewrite fmap_cons. cbn [insort].
  replace ((prod_map id g y).1) with y.1 by done.
  replace ((prod_map id g x).1) with x.1 by done.
  destruct (lt y.1 x.1); rewrite !fmap_cons; [by rewrite IH|done].
Qed.

Lemma sort_asc_fmap {K A B} (lt : K -> K -> bool) (g : A -> B) (l : list (K * A)) :
  prod_map id g <$> sort_asc lt l = sort_asc lt (prod_map id g <$> l).
Proof.
  induction l as [|x l IH]; [done|].
  rewrite fmap_cons. cbn [sort_asc]. by rewrite insort_fmap, IH.
Qed.

Lemma list_sort_fmap {K A B} (lt : K -> K -> bool) (g : A -> B) reverse
    (l : list (K * A)) :
  prod_map id g <$> list_sort lt reverse l
  = list_sort lt reverse (prod_map id g <$> l).
Proof.
  destruct reverse; cbn [list_sort]; [|apply sort_asc_fmap].
  by rewrite fmap_reverse, sort_asc_fmap, fmap_reverse.
Qed.

Lemma sort_by_fmap {A B} (f : B -> float) (g : A -> B) reverse (l : list A) :
  g <$> sort_by (f ∘ g) reverse l = sort_by f reverse (g <$> l).
Proof.
  unfold sort_by.
  rewrite <- !list_fmap_compose.
  transitivity (snd <$> (prod_map id g <$>
    list_sort float_lt reverse ((fun x => ((f ∘ g) x, x)) <$> l))).
  { rewrite <- list_fmap_compose. by apply list_fmap_ext. }
  rewrite list_sort_fmap, <- list_fmap_compose.
  do 2 f_equal.
Qed.

(** ** [parse_qed_value] *)

Lemma parse_qed_value_ok (qed_key : string) (r : row) :
  parse_qed_value (row_get r qed_key (VStr "")) = Ok (qed_number qed_key r).
Proof.
  unfold parse_qed_value, qed_number, py_float.
  destruct (row_get r qed_key (VStr "")) as [s|]; [|done].
  by destruct (parse_float (chars s)).
Qed.

(** C3.  [parse_qed_value] never raises: where [float] returns a number
    it returns that number, and where [float] raises, which it does on
    [None] by [TypeError] and on empty or non-numeric text by
    [ValueError], it returns negative infinity. *)
Theorem parse_qed_value_total (v : value) :
  parse_qed_value v
  = Ok (match py_float v with Ok x => x | Raise _ => neg_inf end).
Proof.
  unfold parse_qed_value, py_float.
  destruct v as [s|]; [|done]. by destruct (parse_float (chars s)).
Qed.

Example parse_qed_value_empty : parse_qed_value (VStr "") = Ok neg_inf.
Proof. reflexivity. Qed.

Example parse_qed_value_none : parse_qed_value VNone = Ok neg_inf.
Proof. reflexivity. Qed.

Example parse_qed_value_words : parse_qed_value (VStr "n/a") = Ok neg_inf.
Proof. vm_compute. reflexivity. Qed.

Example parse_qed_value_half :
  parse_qed_value (VStr " 0.5") = Ok (S754_finite false 4503599627370496 (-53)).
Proof. vm_compute. reflexivity. Qed.

(** ** [sort_rows] *)

Lemma sort_rows_ok (rows : list row) (qed_key : string) :
  sort_rows rows qed_key = Ok (sort_by (qed_number qed_key) true rows).
Proof.
  unfold sort_rows. apply sorted_sort_by.
  intros r _. apply parse_qed_value_ok.
Qed.

Lemma unparseable_number (qed_key : string) (r : row) :
  unparseable qed_key r = true -> qed_number qed_key r = neg_inf.
Proof.
  unfold unparseable, qed_number.
  by destruct (py_float (row_get r qed_key (VStr ""))).
Qed.

(** Scenario 1 of the specification. *)
Example sort_rows_scenario_1 :
  sort_rows [qed_row "0.5"; qed_row "0.9"; qed_row "0.1"] "qed"
  = Ok [qed_row "0.9"; qed_row "0.5"; qed_row "0.1"].
Proof. vm_compute. reflexivity. Qed.

(** Scenario 3 of the specification. *)
Example sort_rows_scenario_3 :
  sort_rows [qed_row ""; qed_row "0.3"; qed_row "0.7"] "qed"
  = Ok [qed_row "0.7"; qed_row "0.3"; qed_row ""].
Proof. vm_compute. reflexivity. Qed.

(** X1.  Without a NaN among the numbers, [sort_rows] returns the records
    in descending order of their numbers. *)
Lemma sort_rows_descending (rows : list row) (qed_key : string) :
  Forall (fun r => is_nan (qed_number qed_key r) = false) rows ->
  exists out, sort_rows rows qed_key = Ok out /\ descending qed_key out.
Proof.
  intros Hok. eexists. split; [apply sort_rows_ok|].
  intros i j ri rj Hij Hi Hj. by eapply sort_by_descending.
Qed.

(** C1.  The claim fails on a cell that reads [nan]: [float] accepts it,
    no comparison with NaN holds, and the records around it stay where
    they are.  Here 0.1 is written before 0.9. *)
Theorem sort_rows_nan_not_descending :
  sort_rows [qed_row "0.1"; qed_row "nan"; qed_row "0.9"] "qed"
  = Ok [qed_row "0.1"; qed_row "nan"; qed_row "0.9"]
  /\ ~ descending "qed" [qed_row "0.1"; qed_row "nan"; qed_row "0.9"].
Proof.
  split; [vm_compute; reflexivity|].
  intros H.
  specialize (H 0%nat 2%nat (qed_row "0.1") (qed_row "0.9")).
  assert (float_ge (qed_number "qed" (qed_row "0.1"))
            (qed_number "qed" (qed_row "0.9")) = false) as Hge
    by (vm_compute; reflexivity).
  rewrite H in Hge; [discriminate|lia|reflexivity..].
Qed.

(** Whatever the order of the output, a NaN next to another record breaks
    the claimed order: no arrangement of these records descends. *)
Lemma nan_never_descending (out : list row) :
  out ≡ₚ [qed_row "nan"; qed_row "1"] -> ~ descending "qed" out.
Proof.
  intros Hp Hd.
  assert (length out = 2%nat) as Hlen by (by rewrite Hp).
  destruct out as [|a [|b [|]]]; try discriminate.
  specialize (Hd 0%nat 1%nat a b).
  assert (a = qed_row "nan" \/ b = qed_row "nan") as Hnan.
  { assert (qed_row "nan" ∈ [a; b]) as Hin by (rewrite Hp; left).
    inversion Hin as [|? ? ? Hin']; subst; [by left|].
    inversion Hin' as [|? ? ? Hin'']; subst; [by right|].
    inversion Hin''. }
  assert (forall r r', r = qed_row "nan" \/ r' = qed_row "nan" ->
    float_ge (qed_number "qed" r) (qed_number "qed" r') = false) as Hno.
  { intros r r' [-> | ->]; unfold float_ge, float_le, SFleb.
    - replace (qed_number "qed" (qed_row "nan")) with nan
        by (vm_compute; reflexivity).
      by destruct (qed_number "qed" r').
    - replace (qed_number "qed" (qed_row "nan")) with nan
        by (vm_compute; reflexivity). done. }
  rewrite Hno in Hd by done. by discriminate Hd; [lia|..].
Qed.

(** C2, on the claim as written.  Text that reads [-inf] is a number, the
    very one that stands in for a missing number, so a record without a
    number that comes first in the input stays before it. *)
Lemma unparseable_before_neg_inf :
  sort_rows [qed_row ""; qed_row "-inf"] "qed"
  = Ok [qed_row ""; qed_row "-inf"]
  /\ py_float (row_get (qed_row "-inf") "qed" (VStr "")) = Ok neg_inf
  /\ py_float (row_get (qed_row "") "qed" (VStr "")) = Raise ValueError
  /\ ~ unparseable_after_valid "qed" [qed_row ""; qed_row "-inf"].
Proof.
  split; [vm_compute; reflexivity|].
  split; [vm_compute; reflexivity|].
  split; [vm_compute; reflexivity|].
  intros H.
  specialize (H 0%nat 1%nat (qed_row "") (qed_row "-inf")).
  assert (1 < 0)%nat; [|lia].
  apply H; vm_compute; reflexivity.
Qed.

(** With a NaN among the numbers the order is lost for the other
    records too: here the record without a number stands first. *)
Lemma unparseable_before_number_with_nan :
  sort_rows [qed_row "n/a"; qed_row "nan"; qed_row "1"] "qed"
  = Ok [qed_row "n/a"; qed_row "nan"; qed_row "1"].
Proof. vm_compute. reflexivity. Qed.

(** C2, amended.  When no cell parses to NaN, every record without a
    number comes after every record whose number is above negative
    infinity, and the records without a number keep their input order. *)
Theorem sort_rows_unparseable_last (rows : list row) (qed_key : string) :
  Forall (fun r => is_nan (qed_number qed_key r) = false) rows ->
  exists out,
    sort_rows rows qed_key = Ok out
    /\ unparseable_after_greater qed_key out
    /\ filter (fun r => unparseable qed_key r = true) out
       = filter (fun r => unparseable qed_key r = true) rows.
Proof.
  intros Hok. eexists. split; [apply sort_rows_ok|]. split.
  - intros i j ri rj Hi Hj Hu Hgt.
    apply unparseable_number in Hu.
    destruct (decide (j < i)%nat) as [|Hge]; [done|exfalso].
    destruct (decide (i = j)) as [->|Hne].
    + rewrite Hi in Hj. injection Hj as ->.
      rewrite Hu in Hgt. discriminate Hgt.
    + assert (float_ge (qed_number qed_key ri) (qed_number qed_key rj) = true)
        as Hd by (eapply sort_by_descending; [exact Hok| |exact Hi|exact Hj]; lia).
      rewrite Hu in Hd. apply float_le_not_lt in Hd. congruence.
  - apply sort_by_filter.
    intros x y _ _ Hx%unparseable_number Hy%unparseable_number.
    by rewrite Hx, Hy.
Qed.

Lemma sort_rows_unparseable_last_witness :
  let rows := [qed_row ""; qed_row "0.3"; qed_row "n/a"; qed_row "0.7"] in
  Forall (fun r => is_nan (qed_number "qed" r) = false) rows
  /\ exists out,
       sort_rows rows "qed" = Ok out
       /\ unparseable_after_greater "qed" out
       /\ filter (fun r => unparseable "qed" r = true) out
          = filter (fun r => unparseable "qed" r = true) rows.
Proof.
  assert (Forall (fun r => is_nan (qed_number "qed" r) = false)
            [qed_row ""; qed_row "0.3"; qed_row "n/a"; qed_row "0.7"]) as H
    by (repeat constructor).
  split; [exact H|].
  exact (sort_rows_unparseable_last _ "qed" H).
Defined.



(** ** [sort_rows] on objects *)

Lemma deref_row_at (h : gmap loc object) (items : list loc) :
  Forall (fun l => exists d, h !! l = Some (Dict d)) items ->
  Heap.deref h items = Some (row_at h <$> items).
Proof.
  unfold Heap.deref. induction 1 as [|l items [d Hd] _ IH]; [done|].
  cbn. rewrite Hd. cbn. rewrite IH. cbn. unfold row_at. by rewrite Hd.
Qed.

Lemma lookup_alloc (h : gmap loc object) (o : object) (l : loc) :
  is_Some (h !! l) -> (alloc h o).1 !! l = h !! l.
Proof.
  intros Hl. unfold alloc. cbn. apply lookup_insert_ne.
  intros <-. apply (is_fresh (dom h)). by apply elem_of_dom.
Qed.

Lemma alloc_fresh (h : gmap loc object) (o : object) : h !! (alloc h o).2 = None.
Proof. unfold alloc. cbn. apply not_elem_of_dom, is_fresh. Qed.

(** C9.  On a list of records, [sort_rows] returns a list object that did
    not exist before; every object that existed, the input list and each
    record among them, is what it was; and the new list holds the
    references of the input list, each as often as the input holds it,
    in the order that [sort_rows] gives the records they name. *)
Theorem heap_sort_rows_fresh_permutation (h : gmap loc object) (rows : loc)
    (qed_key : string) (items : list loc) :
  h !! rows = Some (List items) ->
  Forall (fun l => exists d, h !! l = Some (Dict d)) items ->
  exists (h' : gmap loc object) (r : loc) (out : list loc)
         (records sorted_records : list row),
    Heap.sort_rows h rows qed_key = Ok (h', r)
    /\ h !! r = None
    /\ (forall l o, h !! l = Some o -> h' !! l = Some o)
    /\ h' !! r = Some (List out)
    /\ out ≡ₚ items
    /\ Heap.deref h items = Some records
    /\ sort_rows records qed_key = Ok sorted_records
    /\ Heap.deref h' out = Some sorted_records.
Proof.
  intros Hrows Hitems.
  set (f := qed_number qed_key ∘ row_at h).
  set (out := sort_by f true items).
  assert (sorted items (Heap.qed_of h qed_key) true = Ok out) as Hsorted.
  { apply sorted_sort_by. intros l Hl.
    rewrite Forall_forall in Hitems. destruct (Hitems l Hl) as [d Hd].
    unfold Heap.qed_of, f, compose, row_at. rewrite Hd.
    apply parse_qed_value_ok. }
  assert (out ≡ₚ items) as Hperm by apply sort_by_perm.
  exists (alloc h (List out)).1, (alloc h (List out)).2, out,
    (row_at h <$> items), (row_at h <$> out).
  split; [|split; [|split; [|split; [|split; [|split; [|split]]]]]].
  - unfold Heap.sort_rows. rewrite Hrows, Hsorted. cbn.
    by destruct (alloc h (List out)).
  - apply alloc_fresh.
  - intros l o Hl. rewrite lookup_alloc; [done|by eexists].
  - unfold alloc. cbn. apply lookup_insert_eq.
  - done.
  - by apply deref_row_at.
  - rewrite sort_rows_ok. f_equal. symmetry. apply sort_by_fmap.
  - assert (Forall (fun l => exists d, (alloc h (List out)).1 !! l = Some (Dict d)) out)
      as Hout.
    { rewrite Hperm. eapply Forall_impl; [exact Hitems|].
      intros l [d Hd]. exists d. rewrite lookup_alloc; [done|by eexists]. }
    rewrite (deref_row_at _ _ Hout). f_equal.
    apply Forall_fmap_ext. rewrite Hperm.
    eapply Forall_impl; [exact Hitems|].
    intros l [d Hd]. unfold row_at. rewrite lookup_alloc; [done|by eexists].
Qed.

Lemma heap_sort_rows_fresh_permutation_witness :
  let h : gmap loc object :=
    {[ 1%positive := Dict (qed_row "0.5");
       2%positive := Dict (qed_row "0.9");
       3%positive := List [1%positive; 2%positive] ]} in
  h !! 3%positive = Some (List [1%positive; 2%positive])
  /\ Forall (fun l => exists d, h !! l = Some (Dict d)) [1%positive; 2%positive]
  /\ exists (h' : gmap loc object) (r : loc) (out : list loc)
            (records sorted_records : list row),
       Heap.sort_rows h 3%positive "qed" = Ok (h', r)
       /\ h !! r = None
       /\ (forall l o, h !! l = Some o -> h' !! l = Some o)
       /\ h' !! r = Some (List out)
       /\ out ≡ₚ [1%positive; 2%positive]
       /\ Heap.deref h [1%positive; 2%positive] = Some records
       /\ sort_rows records "qed" = Ok sorted_records
       /\ Heap.deref h' out = Some sorted_records.
Proof.
  intros h.
  assert (h !! 3%positive = Some (List [1%positive; 2%positive])) as H1
    by reflexivity.
  assert (Forall (fun l => exists d, h !! l = Some (Dict d))
            [1%positive; 2%positive]) as H2
    by (repeat constructor; eexists; reflexivity).
  exact (conj H1 (conj H2
           (heap_sort_rows_fresh_permutation h 3%positive "qed" _ H1 H2))).
Defined.

(** ** [dict] *)

Lemma fold_insert_lookup_ne {V} (post : list (string * V)) (m : gmap string V)
    (k : string) :
  (forall p, p ∈ post -> p.1 ≠ k) ->
  fold_left (fun d kv => <[kv.1 := kv.2]> d) post m !! k = m !! k.
Proof.
  revert m. induction post as [|p post IH]; intros m Hk; [done|].
  cbn. rewrite IH by (intros; apply Hk; by right).
  apply lookup_insert_ne, Hk. by left.
Qed.

Lemma dict_snoc {V} (pairs : list (string * V)) (k : string) (v : V) :
  dict (pairs ++ [(k, v)])%list = <[k := v]> (dict pairs).
Proof. unfold dict. by rewrite fold_left_app. Qed.

Lemma dict_lookup_last {V} (pre post : list (string * V)) (k : string) (v : V) :
  (forall p, p ∈ post -> p.1 ≠ k) ->
  dict (pre ++ (k, v) :: post)%list !! k = Some v.
Proof.
  intros Hk. unfold dict. rewrite fold_left_app. cbn.
  rewrite fold_insert_lookup_ne by done. apply lookup_insert_eq.
Qed.

Lemma dict_lookup_None {V} (pairs : list (string * V)) (k : string) :
  (forall p, p ∈ pairs -> p.1 ≠ k) -> dict pairs !! k = None.
Proof. intros Hk. unfold dict. by rewrite fold_insert_lookup_ne. Qed.

Lemma dict_lookup_None_inv {V} (pairs : list (string * V)) (k : string) :
  dict pairs !! k = None -> forall p, p ∈ pairs -> p.1 ≠ k.
Proof.
  induction pairs as [|[k' v'] pairs IH] using rev_ind.
  { intros _ p Hp. inversion Hp. }
  rewrite dict_snoc. intros [Hne Hnone]%lookup_insert_None.
  intros p [Hp | ->%list_elem_of_singleton]%elem_of_app; [by apply IH|done].
Qed.

Lemma dict_lookup_Some {V} (pairs : list (string * V)) (k : string) (v : V) :
  dict pairs !! k = Some v ->
  exists pre post, pairs = (pre ++ (k, v) :: post)%list
                   /\ forall p, p ∈ post -> p.1 ≠ k.
Proof.
  induction pairs as [|[k' v'] pairs IH] using rev_ind; [done|].
  rewrite dict_snoc. destruct (decide (k' = k)) as [->|Hne].
  - rewrite lookup_insert_eq. intros [= ->].
    exists pairs, []. split; [done|]. intros p Hp. inversion Hp.
  - rewrite lookup_insert_ne by done. intros (pre & post & -> & Hpost)%IH.
    exists pre, (post ++ [(k', v')])%list. split; [by rewrite <- app_assoc|].
    intros p [Hp | ->%list_elem_of_singleton]%elem_of_app; [by apply Hpost|done].
Qed.

(** ** [resolve_qed_field] *)

Lemma string_app_cons (c : ascii) (s t : string) :
  String c s ++ t = String c (s ++ t).
Proof. reflexivity. Qed.

Lemma string_app_assoc (s t u : string) : (s ++ t) ++ u = s ++ t ++ u.
Proof.
  induction s as [|c s IH]; [done|].
  by rewrite !string_app_cons, IH.
Qed.

Lemma string_app_nil_r (s : string) : s ++ "" = s.
Proof. induction s as [|c s IH]; [done|]. by rewrite string_app_cons, IH. Qed.

Lemma join_occurs (sep : string) (names : list string) (name : string) :
  name ∈ names -> occurs_in name (join sep names).
Proof.
  induction names as [|x names IH]; intros Hin; [inversion Hin|].
  apply elem_of_cons in Hin as [->|Hin].
  - destruct names as [|y names].
    + exists "", "". cbn. by rewrite string_app_nil_r.
    + exists "", (sep ++ join sep (y :: names)). done.
  - destruct (IH Hin) as (pre & post & Hj).
    destruct names as [|y names]; [inversion Hin|].
    exists (x ++ sep ++ pre), post.
    change (join sep (x :: y :: names)) with (x ++ sep ++ join sep (y :: names)).
    by rewrite Hj, !string_app_assoc.
Qed.

Lemma occurs_in_suffix (s pre msg : string) :
  occurs_in s msg -> occurs_in s (pre ++ msg).
Proof.
  intros (a & b & ->). exists (pre ++ a), b. by rewrite string_app_assoc.
Qed.

Lemma resolve_pairs (names pre post : list string) (name : string) :
  names = (pre ++ name :: post)%list ->
  (fun n => (lower n, n)) <$> names
  = (((fun n => (lower n, n)) <$> pre) ++ (lower name, name)
      :: ((fun n => (lower n, n)) <$> post))%list.
Proof. intros ->. by rewrite fmap_app, fmap_cons. Qed.

Lemma resolve_qed_field_Raise (fieldnames : list string) (desired : string) :
  (forall name, name ∈ fieldnames -> lower name ≠ lower desired) ->
  resolve_qed_field fieldnames desired
  = Raise (SystemExit ("QED column '" ++ desired
                       ++ "' not found. Available columns: "
                       ++ join ", " fieldnames)).
Proof.
  intros Hno. unfold resolve_qed_field. rewrite dict_lookup_None; [done|].
  intros p (n & -> & Hn)%list_elem_of_fmap. by apply Hno.
Qed.

Lemma resolve_qed_field_Ok (fieldnames : list string) (desired : string) :
  (exists name, name ∈ fieldnames /\ lower name = lower desired) ->
  exists name, resolve_qed_field fieldnames desired = Ok name.
Proof.
  intros (n & Hn & Heq). unfold resolve_qed_field.
  destruct (dict _ !! lower desired) as [name|] eqn:Hlook; [by eexists|].
  exfalso. apply (dict_lookup_None_inv _ _ Hlook (lower n, n)); [|done].
  by apply (list_elem_of_fmap_2 (fun n => (lower n, n))).
Qed.

(** C4.  [resolve_qed_field] returns a name exactly when some header name
    equals the requested one after lowercasing, and the name it returns
    is such a header name; otherwise it exits with a message in which
    every header name occurs. *)
Theorem resolve_qed_field_spec (fieldnames : list string) (desired : string) :
  match resolve_qed_field fieldnames desired with
  | Ok name => name ∈ fieldnames /\ lower name = lower desired
  | Raise e =>
      (forall name, name ∈ fieldnames -> lower name ≠ lower desired)
      /\ exists msg,
           e = SystemExit msg
           /\ msg = "QED column '" ++ desired
                    ++ "' not found. Available columns: "
                    ++ join ", " fieldnames
           /\ forall name, name ∈ fieldnames -> occurs_in name msg
  end.
Proof.
  unfold resolve_qed_field.
  destruct (dict _ !! lower desired) as [name|] eqn:Hlook.
  - apply dict_lookup_Some in Hlook as (pre & post & Hpairs & _).
    assert ((lower desired, name) ∈ (fun n => (lower n, n)) <$> fieldnames)
      as Hin by (rewrite Hpairs, elem_of_app; right; left).
    apply list_elem_of_fmap in Hin as (n & [= Hl ->] & Hn). done.
  - split.
    + intros name Hin.
      apply (dict_lookup_None_inv _ _ Hlook (lower name, name)).
      by apply (list_elem_of_fmap_2 (fun n => (lower n, n))).
    + eexists. split; [done|]. split; [done|].
      intros name Hin. do 3 apply occurs_in_suffix. by apply join_occurs.
Qed.

(** Scenario 2 of the specification. *)
Example resolve_qed_field_scenario_2 :
  resolve_qed_field ["ID"; "QED"] "qed" = Ok "QED".
Proof. vm_compute. reflexivity. Qed.

(** Scenario 5 of the specification. *)
Example resolve_qed_field_scenario_5 :
  resolve_qed_field ["id"; "qed"; "name"] "price"
  = Raise (SystemExit
      "QED column 'price' not found. Available columns: id, qed, name").
Proof. vm_compute. reflexivity. Qed.

(** C10.  Among the header names that equal the requested one after
    lowercasing, [resolve_qed_field] returns the last in header order,
    whatever stands before it. *)
Theorem resolve_qed_field_last (pre post : list string) (name desired : string) :
  lower name = lower desired ->
  (forall n, n ∈ post -> lower n ≠ lower desired) ->
  resolve_qed_field (pre ++ name :: post)%list desired = Ok name.
Proof.
  intros Heq Hpost. unfold resolve_qed_field.
  rewrite (resolve_pairs _ pre post name eq_refl), Heq.
  rewrite dict_lookup_last; [done|].
  intros p (n & -> & Hn)%list_elem_of_fmap. by apply Hpost.
Qed.

Lemma resolve_qed_field_last_witness :
  lower "Qed" = lower "qed"
  /\ (forall n, n ∈ ["name"] -> lower n ≠ lower "qed")
  /\ resolve_qed_field (["QED"; "id"] ++ "Qed" :: ["name"])%list "qed" = Ok "Qed".
Proof.
  assert (lower "Qed" = lower "qed") as H1 by reflexivity.
  assert (forall n, n ∈ ["name"] -> lower n ≠ lower "qed") as H2.
  { intros n Hn. apply list_elem_of_singleton in Hn. subst n.
    vm_compute. discriminate. }
  exact (conj H1 (conj H2
           (resolve_qed_field_last ["QED"; "id"] ["name"] "Qed" "qed" H1 H2))).
Defined.

(** ** [main] *)

Lemma dom_fold_insert {V} (pairs : list (string * V)) (m : gmap string V) :
  dom (fold_left (fun d kv => <[kv.1 := kv.2]> d) pairs m)
  = dom m ∪ list_to_set pairs.*1.
Proof.
  revert m. induction pairs as [|[k v] pairs IH]; intros m; cbn.
  - set_solver.
  - rewrite IH, dom_insert_L. set_solver.
Qed.

Lemma dom_dict {V} (pairs : list (string * V)) :
  dom (dict pairs) = list_to_set pairs.*1.
Proof. unfold dict. rewrite dom_fold_insert, dom_empty_L. set_solver. Qed.

Lemma dom_fold_none (keys : list string) (m : gmap string value) :
  dom (fold_left (fun d key => <[key := VNone]> d) keys m)
  = dom m ∪ list_to_set keys.
Proof.
  revert m. induction keys as [|k keys IH]; intros m; cbn.
  - set_solver.
  - rewrite IH, dom_insert_L. set_solver.
Qed.

Lemma zip_fst_subseteq {B} (names : list string) (cells : list B) :
  list_to_set (C := gset string) (zip names cells).*1 ⊆ list_to_set names.
Proof.
  revert cells. induction names as [|n names IH]; intros [|c cells]; cbn;
    set_solver.
Qed.

Lemma zip_fmap_diag {B} (g : string -> B) (names : list string) :
  zip names (g <$> names) = (fun n => (n, g n)) <$> names.
Proof. induction names; [done|]. cbn. by f_equal. Qed.

Lemma writeheader_record (fieldnames : list string) :
  dict_to_list fieldnames (Row (dict (zip fieldnames (VStr <$> fieldnames))) None)
  = Ok fieldnames.
Proof.
  unfold dict_to_list. cbn [rest fields].
  rewrite bool_decide_eq_true_2
    by (split; [done|rewrite dom_dict; apply zip_fst_subseteq]).
  f_equal. transitivity (id <$> fieldnames); [|apply list_fmap_id].
  apply Forall_fmap_ext, Forall_forall. intros key Hkey.
  unfold row_get. cbn [fields]. rewrite zip_fmap_diag.
  destruct (dict _ !! key) as [v|] eqn:Hlook.
  - apply dict_lookup_Some in Hlook as (pre & post & Hpairs & _).
    assert ((key, v) ∈ (fun n => (n, VStr n)) <$> fieldnames) as Hin
      by (rewrite Hpairs, elem_of_app; right; left).
    by apply list_elem_of_fmap in Hin as (n & [= -> ->] & _).
  - exfalso. apply (dict_lookup_None_inv _ _ Hlook (key, VStr key)); [|done].
    by apply (list_elem_of_fmap_2 (fun n => (n, VStr n))).
Qed.

Lemma world_insert_id (w : world) (path : string) (content : list (list string)) :
  files w !! path = Some content ->
  World (<[path := (content ++ [])%list]> (files w)) (stdout w) = w.
Proof.
  intros H. rewrite app_nil_r, insert_id by done. by destruct w.
Qed.

Lemma writerows_run (path : string) (fieldnames : list string)
    (rowdicts : list row) (w : world) (content : list (list string)) :
  files w !! path = Some content ->
  exists res,
    DictWriter_writerows path fieldnames rowdicts w
    = (res, World (<[path := (content ++ written fieldnames rowdicts)%list]> (files w))
                  (stdout w))
    /\ (Forall (fun r => exists record, dict_to_list fieldnames r = Ok record)
          rowdicts -> res = Ok ()).
Proof.
  revert w content. induction rowdicts as [|r rs IH]; intros w content Hfile.
  { exists (Ok ()). cbn. by rewrite world_insert_id. }
  cbn [DictWriter_writerows written].
  unfold mbind at 1. unfold io_bind, DictWriter_writerow.
  unfold mbind at 1. unfold io_bind, lift.
  destruct (dict_to_list fieldnames r) as [record|e] eqn:Hrec.
  - unfold writer_writerow at 1. rewrite Hfile. cbn [default].
    set (w1 := World _ _).
    destruct (IH w1 (content ++ [record])%list) as (res & Hrun & Hok).
    { subst w1. cbn. apply lookup_insert_eq. }
    exists res. split.
    + rewrite Hrun. subst w1. cbn [files stdout].
      by rewrite insert_insert_eq, <- app_assoc.
    + intros Hall. apply Hok. by apply Forall_cons in Hall as [_ ?].
  - exists (Raise e). split.
    + by rewrite world_insert_id.
    + intros Hall. apply Forall_cons in Hall as [[record Hr] _]. congruence.
Qed.

(** A run that gets past the header and the column writes the header and
    then the sorted records, as far as [DictWriter] accepts them. *)
Lemma main_valid (args : Namespace) (w : world) (f : list (list string))
    (fieldnames : list string) (column : string) :
  files w !! input args = Some f ->
  DictReader_fieldnames f = Some fieldnames ->
  resolve_qed_field fieldnames (qed_field args) = Ok column ->
  exists res lines,
    main args w
    = (res,
       World (<[output args :=
                  fieldnames
                  :: written fieldnames
                       (sort_by (qed_number column) true
                          (DictReader_rows fieldnames f))]> (files w))
             lines)
    /\ (Forall (fun r => exists record, dict_to_list fieldnames r = Ok record)
          (DictReader_rows fieldnames f) -> res = Ok ()).
Proof.
  intros Hfile Hhead Hcol. unfold main.
  unfold mbind at 1. unfold io_bind, path_exists.
  rewrite bool_decide_eq_true_2 by (by rewrite Hfile). cbn [negb].
  unfold mbind at 1. unfold io_bind, read_records. rewrite Hfile, Hhead.
  unfold mbind at 1. unfold io_bind, lift. rewrite Hcol.
  unfold mbind at 1. unfold io_bind. rewrite sort_rows_ok.
  set (sorted_rows := sort_by _ _ _).
  unfold mbind at 1. unfold io_bind, mkdir_parent, mret, io_ret.
  unfold mbind at 1. unfold io_bind, open_write.
  unfold mbind at 1. unfold io_bind, DictWriter_writeheader, DictWriter_writerow.
  unfold mbind at 1. unfold io_bind, lift. rewrite writeheader_record.
  unfold writer_writerow at 1. cbn [files stdout].
  rewrite lookup_insert_eq, insert_insert_eq. cbn [default app].
  set (w1 := World _ _).
  destruct (writerows_run (output args) fieldnames sorted_rows w1 [fieldnames])
    as (res & Hrun & Hok); [apply lookup_insert_eq|].
  unfold mbind at 1. unfold io_bind. rewrite Hrun.
  subst w1. cbn [files stdout]. rewrite insert_insert_eq.
  destruct res as [[]|e].
  - eexists (Ok ()), _. split; [reflexivity|done].
  - exists (Raise e), (stdout w). split; [done|].
    intros Hall. apply Hok. subst sorted_rows.
    by rewrite sort_by_perm.
Qed.

Lemma DictReader_row_accepted (fieldnames record : list string) :
  (length record <= length fieldnames)%nat ->
  exists cells, dict_to_list fieldnames (DictReader_row fieldnames record) = Ok cells.
Proof.
  intros Hlen. unfold DictReader_row.
  destruct (Nat.ltb_spec (List.length fieldnames) (List.length record)) as [Hlt|_].
  { exfalso. lia. }
  unfold dict_to_list. cbn [rest fields].
  rewrite bool_decide_eq_true_2; [by eexists|].
  split; [done|]. rewrite dom_fold_none, dom_dict.
  apply union_least; [apply zip_fst_subseteq|].
  intros n Hn%elem_of_list_to_set. apply elem_of_list_to_set.
  by eapply subseteq_drop.
Qed.

Lemma written_length (fieldnames : list string) (rowdicts : list row) :
  Forall (fun r => exists record, dict_to_list fieldnames r = Ok record) rowdicts ->
  length (written fieldnames rowdicts) = length rowdicts.
Proof.
  induction 1 as [|r rs [record Hr] _ IH]; [done|].
  cbn. rewrite Hr. cbn. by rewrite IH.
Qed.

(** Where no line of the input has more cells than the header, the run
    succeeds and writes as many records as it read. *)
Lemma main_row_count (args : Namespace) (w : world) (f : list (list string))
    (fieldnames : list string) (column : string) :
  files w !! input args = Some f ->
  DictReader_fieldnames f = Some fieldnames ->
  resolve_qed_field fieldnames (qed_field args) = Ok column ->
  Forall (fun record => (length record <= length fieldnames)%nat) (tail f) ->
  exists records lines,
    main args w
    = (Ok (), World (<[output args := fieldnames :: records]> (files w)) lines)
    /\ length records = length (DictReader_rows fieldnames f).
Proof.
  intros Hfile Hhead Hcol Hshort.
  assert (Forall (fun r => exists record, dict_to_list fieldnames r = Ok record)
            (DictReader_rows fieldnames f)) as Hacc.
  { unfold DictReader_rows. rewrite Forall_fmap. apply Forall_forall.
    intros record [_ Hin]%list_elem_of_filter. apply DictReader_row_accepted.
    rewrite Forall_forall in Hshort. by apply Hshort. }
  destruct (main_valid args w f fieldnames column Hfile Hhead Hcol)
    as (res & lines & Hrun & Hok).
  rewrite (Hok Hacc) in Hrun. eexists _, lines. split; [exact Hrun|].
  rewrite written_length, sort_by_length; [done|].
  by rewrite sort_by_perm.
Qed.

(** A run on a file with a blank line and a short line: the blank line is
    skipped, the short line's missing cell is written empty, and the
    record without a number comes last. *)
Example main_run :
  main {| input := "in.csv"; output := "out/sorted.csv"; qed_field := "qed" |}
       (World {[ "in.csv" := [["ID"; "QED"]; ["a"; "0.5"]; ["b"; "0.9"]; [];
                              ["c"]; ["d"; "0.1"]] ]} [])
  = (Ok (),
     World {[ "in.csv" := [["ID"; "QED"]; ["a"; "0.5"]; ["b"; "0.9"]; [];
                           ["c"]; ["d"; "0.1"]];
              "out/sorted.csv" := [["ID"; "QED"]; ["b"; "0.9"]; ["a"; "0.5"];
                                   ["d"; "0.1"]; ["c"; ""]] ]}
           ["Wrote 4 rows sorted by 'QED' (desc) to out/sorted.csv"]).
Proof. vm_compute. reflexivity. Qed.

(** C5.  The claim fails on a line with more cells than the header:
    [DictReader] keeps the surplus under the key [None], [DictWriter]
    refuses the dict, and the run ends in [ValueError] with the header
    and the records sorted before that one already written.  Three
    records are read here and one is written. *)
Theorem main_long_row_loses_records :
  let args := {| input := "in.csv"; output := "out.csv"; qed_field := "qed" |} in
  let f := [["id"; "qed"]; ["b"; "0.9"]; ["a"; "0.5"; "x"]; ["c"; "0.1"]] in
  DictReader_fieldnames f = Some ["id"; "qed"]
  /\ resolve_qed_field ["id"; "qed"] "qed" = Ok "qed"
  /\ length (DictReader_rows ["id"; "qed"] f) = 3%nat
  /\ main args (World {[ "in.csv" := f ]} [])
     = (Raise ValueError,
        World {[ "in.csv" := f; "out.csv" := [["id"; "qed"]; ["b"; "0.9"]] ]} []).
Proof.
  repeat split; vm_compute; reflexivity.
Qed.

(** C6.  A run on a file with a header in which the requested column
    resolves leaves an output file whose header is the input's. *)
Theorem main_keeps_header (args : Namespace) (w : world)
    (f : list (list string)) (fieldnames : list string) :
  files w !! input args = Some f ->
  DictReader_fieldnames f = Some fieldnames ->
  (exists name, name ∈ fieldnames /\ lower name = lower (qed_field args)) ->
  exists out,
    files (main args w).2 !! output args = Some out
    /\ DictReader_fieldnames out = Some fieldnames.
Proof.
  intros Hfile Hhead [column Hcol]%resolve_qed_field_Ok.
  destruct (main_valid args w f fieldnames column Hfile Hhead Hcol)
    as (res & lines & -> & _).
  eexists. split; [apply lookup_insert_eq|done].
Qed.

Lemma main_keeps_header_witness :
  let args := {| input := "in.csv"; output := "out.csv"; qed_field := "qed" |} in
  let f := [["ID"; "QED"]; ["a"; "0.5"]; ["b"; "0.9"]] in
  let w := World {[ "in.csv" := f ]} [] in
  files w !! input args = Some f
  /\ DictReader_fieldnames f = Some ["ID"; "QED"]
  /\ (exists name, name ∈ ["ID"; "QED"] /\ lower name = lower (qed_field args))
  /\ exists out,
       files (main args w).2 !! output args = Some out
       /\ DictReader_fieldnames out = Some ["ID"; "QED"].
Proof.
  intros args f w.
  assert (files w !! input args = Some f) as H1 by reflexivity.
  assert (DictReader_fieldnames f = Some ["ID"; "QED"]) as H2 by reflexivity.
  assert (exists name, name ∈ ["ID"; "QED"] /\ lower name = lower (qed_field args))
    as H3 by (exists "QED"; split; [right; left|reflexivity]).
  exact (conj H1 (conj H2 (conj H3 (main_keeps_header args w f _ H1 H2 H3)))).
Defined.

(** C7.  On each structural error the run ends in [SystemExit] with the
    error's message and the world is what it was: no file is created or
    changed and nothing is printed. *)
Theorem main_structural_error (args : Namespace) (w : world) (msg : string) :
  structural_error args w msg ->
  main args w = (Raise (SystemExit msg), w).
Proof.
  intros [Hfile|Hfile|fieldnames records Hfile Hcol]; unfold main.
  - unfold mbind at 1. unfold io_bind, path_exists.
    rewrite bool_decide_eq_false_2; [done|].
    rewrite Hfile. by intros [? ?].
  - unfold mbind at 1. unfold io_bind, path_exists.
    rewrite bool_decide_eq_true_2 by (by rewrite Hfile). cbn [negb].
    unfold mbind at 1. unfold io_bind, read_records. by rewrite Hfile.
  - unfold mbind at 1. unfold io_bind, path_exists.
    rewrite bool_decide_eq_true_2 by (by rewrite Hfile). cbn [negb].
    unfold mbind at 1. unfold io_bind, read_records. rewrite Hfile.
    cbn [DictReader_fieldnames head].
    unfold mbind at 1. unfold io_bind, lift.
    by rewrite resolve_qed_field_Raise.
Qed.

(** Scenario 4 of the specification. *)
Lemma main_structural_error_witness :
  let args := {| input := "missing.csv"; output := "out.csv"; qed_field := "qed" |} in
  let w := World {[ "in.csv" := [["id"; "qed"]; ["a"; "0.5"]] ]} [] in
  structural_error args w "Input file not found: missing.csv"
  /\ main args w = (Raise (SystemExit "Input file not found: missing.csv"), w).
Proof.
  intros args w.
  assert (structural_error args w "Input file not found: missing.csv") as H
    by (apply (InputNotFound args w); reflexivity).
  exact (conj H (main_structural_error args w _ H)).
Defined.

(** * Further properties *)

(** ** More on [sort_rows] *)

Lemma sort_rows_descending_witness :
  Forall (fun r => is_nan (qed_number "qed" r) = false)
    [qed_row "0.5"; qed_row ""; qed_row "inf"; qed_row "-2e3"]
  /\ exists out,
       sort_rows [qed_row "0.5"; qed_row ""; qed_row "inf"; qed_row "-2e3"] "qed"
       = Ok out
       /\ descending "qed" out.
Proof.
  assert (Forall (fun r => is_nan (qed_number "qed" r) = false)
            [qed_row "0.5"; qed_row ""; qed_row "inf"; qed_row "-2e3"]) as H
    by (repeat constructor).
  exact (conj H (sort_rows_descending _ "qed" H)).
Defined.

Lemma rank_compare_Eq a b : rank_compare a b = Eq <-> a = b.
Proof.
  destruct a as [[a1 a2] a3], b as [[b1 b2] b3].
  unfold rank_compare; cbn [fst snd].
  destruct (Z.compare_spec a1 b1), (Z.compare_spec a2 b2),
    (Z.compare_spec a3 b3); split; intros Heq; try discriminate;
    try (injection Heq; lia); subst; reflexivity.
Qed.

Lemma float_eq_spec (x y : float) :
  float_eq x y = true <->
  is_nan x = false /\ is_nan y = false /\ rank x = rank y.
Proof.
  unfold float_eq, SFeqb.
  destruct (is_nan x) eqn:Hx.
  { destruct x; try discriminate. cbn. intuition discriminate. }
  destruct (is_nan y) eqn:Hy.
  { destruct y; try discriminate. destruct x; cbn; intuition discriminate. }
  rewrite SFcompare_rank by assumption. rewrite <- rank_compare_Eq.
  destruct (rank_compare (rank x) (rank y)); intuition discriminate.
Qed.

Lemma float_eq_not_lt (a b x : float) :
  float_eq a x = true -> float_eq b x = true -> float_lt a b = false.
Proof.
  intros (_ & _ & Ha)%float_eq_spec (_ & _ & Hb)%float_eq_spec.
  apply not_true_is_false. intros (_ & _ & Hlt)%float_lt_spec.
  rewrite Ha, Hb in Hlt. generalize dependent (rank x). intros; lex_solve.
Qed.

(** X2.  Without a NaN among the numbers, the records whose numbers
    compare equal, to each other and to any given number, stand in the
    output in their input order. *)
Theorem sort_rows_stable (rows : list row) (qed_key : string) (x : float) :
  no_nan qed_key rows ->
  exists out,
    sort_rows rows qed_key = Ok out
    /\ filter (fun r => float_eq (qed_number qed_key r) x = true) out
       = filter (fun r => float_eq (qed_number qed_key r) x = true) rows.
Proof.
  intros _. eexists. split; [apply sort_rows_ok|].
  apply sort_by_filter. intros a b _ _. apply float_eq_not_lt.
Qed.

Lemma sort_rows_stable_witness :
  let rows := [Row {[ "id" := VStr "a"; "qed" := VStr "0.5" ]} None;
               Row {[ "id" := VStr "b"; "qed" := VStr "0.9" ]} None;
               Row {[ "id" := VStr "c"; "qed" := VStr "5e-1" ]} None] in
  no_nan "qed" rows
  /\ exists out,
       sort_rows rows "qed" = Ok out
       /\ filter (fun r => float_eq (qed_number "qed" r)
                             (S754_finite false 4503599627370496 (-53)) = true) out
          = filter (fun r => float_eq (qed_number "qed" r)
                               (S754_finite false 4503599627370496 (-53)) = true) rows.
Proof.
  intros rows.
  assert (no_nan "qed" rows) as H by (repeat constructor).
  exact (conj H (sort_rows_stable rows "qed" _ H)).
Defined.

Lemma filter_all {A} (Q : A -> Prop) `{!forall x, Decision (Q x)} (l : list A) :
  Forall Q l -> filter Q l = l.
Proof.
  induction 1 as [|x l Hx _ IH]; [done|].
  rewrite filter_cons, IH. by destruct (decide (Q x)).
Qed.

(** X3.  A list in which no record has a number under the key, as when
    the column is missing from every record, comes back in its input
    order. *)
Theorem sort_rows_no_numbers (rows : list row) (qed_key : string) :
  Forall (fun r => unparseable qed_key r = true) rows ->
  sort_rows rows qed_key = Ok rows.
Proof.
  intros Hall. rewrite sort_rows_ok. f_equal.
  rewrite <- (filter_all (fun r => unparseable qed_key r = true) rows Hall) at 2.
  rewrite <- (sort_by_filter (qed_number qed_key)
                (fun r => unparseable qed_key r = true) true rows).
  - symmetry. apply filter_all. by rewrite sort_by_perm.
  - intros a b _ _ Ha%unparseable_number Hb%unparseable_number.
    by rewrite Ha, Hb.
Qed.

Lemma sort_rows_no_numbers_witness :
  let rows := [Row {[ "id" := VStr "a" ]} None;
               Row {[ "id" := VStr "b"; "qed" := VNone ]} None;
               Row {[ "id" := VStr "c"; "qed" := VStr "high" ]} None] in
  Forall (fun r => unparseable "qed" r = true) rows
  /\ sort_rows rows "qed" = Ok rows.
Proof.
  intros rows.
  assert (Forall (fun r => unparseable "qed" r = true) rows) as H
    by (repeat constructor).
  exact (conj H (sort_rows_no_numbers rows "qed" H)).
Defined.

Lemma descending_Sorted (rows : list row) (qed_key : string) :
  descending qed_key rows ->
  Sorted (fun a b => float_lt (qed_number qed_key a) (qed_number qed_key b) = false)
    rows.
Proof.
  induction rows as [|r rows IH]; intros Hd; [constructor|].
  constructor.
  - apply IH. intros i j ri rj Hij Hi Hj.
    apply (Hd (S i) (S j)); [lia|done..].
  - destruct rows as [|r' rows]; constructor.
    apply float_le_not_lt. apply (Hd 0%nat 1%nat); [lia|reflexivity..].
Qed.

Lemma sort_by_fixed {A} (f : A -> float) (l : list A) :
  Sorted (fun a b => float_lt (f a) (f b) = false) l ->
  sort_by f true l = l.
Proof.
  intros Hs. unfold sort_by, list_sort.
  rewrite sort_asc_fixed, reverse_involutive.
  - rewrite <- list_fmap_compose.
    rewrite <- (list_fmap_id l) at 2. by apply list_fmap_ext.
  - apply (Sorted_reverse (fun x y : float * A => float_lt x.1 y.1 = false)).
    eapply Sorted_fmap; [|exact Hs]. done.
Qed.

(** X4.  A list that is already in descending order of its numbers comes
    back as it is. *)
Theorem sort_rows_descending_fixed (rows : list row) (qed_key : string) :
  descending qed_key rows -> sort_rows rows qed_key = Ok rows.
Proof.
  intros Hd. rewrite sort_rows_ok. f_equal.
  by apply sort_by_fixed, descending_Sorted.
Qed.

Lemma sort_rows_descending_fixed_witness :
  descending "qed" [qed_row "0.9"; qed_row "0.5"; qed_row "n/a"]
  /\ sort_rows [qed_row "0.9"; qed_row "0.5"; qed_row "n/a"] "qed"
     = Ok [qed_row "0.9"; qed_row "0.5"; qed_row "n/a"].
Proof.
  assert (descending "qed" [qed_row "0.9"; qed_row "0.5"; qed_row "n/a"]) as H.
  { intros i j ri rj Hij Hi Hj.
    destruct j as [|[|[|j]]]; [lia| | |discriminate Hj];
      destruct i as [|[|i]]; try lia;
      injection Hi as <-; injection Hj as <-; vm_compute; reflexivity. }
  exact (conj H (sort_rows_descending_fixed _ "qed" H)).
Defined.

Lemma sort_by_ext {A} (f f' : A -> float) (reverse : bool) (l : list A) :
  (forall x, x ∈ l -> f x = f' x) -> sort_by f reverse l = sort_by f' reverse l.
Proof.
  intros Hext. unfold sort_by. do 2 f_equal.
  apply Forall_fmap_ext, Forall_forall. intros x Hx. by rewrite Hext.
Qed.

(** X5.  The order depends on the records only through their cell under
    the key: a change [g] to the records that keeps that cell, such as
    dropping or editing other columns, can be made before or after
    [sort_rows] with the same result. *)
Theorem sort_rows_fmap (g : row -> row) (rows : list row) (qed_key : string) :
  (forall r, r ∈ rows ->
     row_get (g r) qed_key (VStr "") = row_get r qed_key (VStr "")) ->
  sort_rows (g <$> rows) qed_key
  = (out ← sort_rows rows qed_key; Ok (g <$> (out : list row))).
Proof.
  intros Hkey. rewrite !sort_rows_ok. unfold mbind, result_bind. f_equal.
  rewrite <- sort_by_fmap. f_equal. apply sort_by_ext.
  intros r Hr. unfold compose, qed_number. by rewrite Hkey.
Qed.

Lemma sort_rows_fmap_witness :
  let g := fun r : row => Row (delete "id" (fields r)) (rest r) in
  let rows := [Row {[ "id" := VStr "a"; "qed" := VStr "0.5" ]} None;
               Row {[ "id" := VStr "b"; "qed" := VStr "0.9" ]} None] in
  (forall r, r ∈ rows ->
     row_get (g r) "qed" (VStr "") = row_get r "qed" (VStr ""))
  /\ sort_rows (g <$> rows) "qed"
     = (out ← sort_rows rows "qed"; Ok (g <$> (out : list row))).
Proof.
  intros g rows.
  assert (forall r, r ∈ rows ->
            row_get (g r) "qed" (VStr "") = row_get r "qed" (VStr "")) as H.
  { intros r _. unfold row_get, g. cbn [fields].
    by rewrite lookup_delete_ne. }
  exact (conj H (sort_rows_fmap g rows "qed" H)).
Defined.

(** ** More on [parse_qed_value] *)

Section RoundingFacts.
Local Open Scope Z_scope.

Lemma iter_pos_invariant {A} (P : A -> Prop) (f : A -> A) (p : positive) (x : A) :
  (forall y, P y -> P (f y)) -> P x -> P (SpecFloat.iter_pos f p x).
Proof.
  intros Hf. revert x. induction p as [p IH|p IH|]; intros x Hx; cbn; auto.
Qed.

Lemma shr_1_nonneg (mrs : shr_record) : 0 <= shr_m mrs -> 0 <= shr_m (shr_1 mrs).
Proof.
  destruct mrs as [m r s]. cbn. destruct m as [|[p|p|]|[p|p|]]; cbn; lia.
Qed.

Lemma shr_nonneg (mrs : shr_record) (e n : Z) :
  0 <= shr_m mrs -> 0 <= shr_m (shr mrs e n).1.
Proof.
  intros H. destruct n; cbn; try done.
  apply (iter_pos_invariant (fun y => 0 <= shr_m y)); [apply shr_1_nonneg|done].
Qed.

Lemma shr_fexp_nonneg (m e : Z) (l : location) :
  0 <= m -> 0 <= shr_m (shr_fexp prec emax m e l).1.
Proof.
  intros H. unfold shr_fexp. apply shr_nonneg. by destruct l as [|[]].
Qed.

Lemma round_nearest_even_nonneg (m : Z) (l : location) :
  0 <= m -> 0 <= round_nearest_even m l.
Proof. intros H. destruct l as [|[]]; cbn; try done; [destruct (Z.even m)|]; lia. Qed.

Lemma binary_round_aux_not_nan (sx : bool) (mx ex : Z) (lx : location) :
  0 <= mx -> is_nan (binary_round_aux prec emax sx mx ex lx) = false.
Proof.
  intros H. unfold binary_round_aux.
  pose proof (shr_fexp_nonneg mx ex lx H) as H1.
  destruct (shr_fexp prec emax mx ex lx) as [mrs' e'].
  pose proof (shr_fexp_nonneg _ e' loc_Exact
                (round_nearest_even_nonneg _ (loc_of_shr_record mrs') H1)) as H2.
  destruct (shr_fexp prec emax _ e' loc_Exact) as [mrs'' e''].
  cbn in H2. destruct (shr_m mrs''); [done| |lia].
  by destruct (e'' <=? emax - prec).
Qed.

Lemma round_decimal_not_nan (neg : bool) (m e : Z) :
  is_nan (round_decimal neg m e) = false.
Proof.
  unfold round_decimal. destruct m as [|p|p]; try done.
  destruct e as [|q|q].
  - unfold binary_round. destruct (shl_align _ _ _).
    by apply binary_round_aux_not_nan.
  - unfold binary_round. destruct (shl_align _ _ _).
    by apply binary_round_aux_not_nan.
  - unfold SFdiv, SFdiv_core_binary.
    set (m' := match _ with Z0 => _ | _ => _ end).
    assert (0 <= m') as Hm'.
    { subst m'. match goal with |- context [match ?s with _ => _ end] => destruct s end;
        try lia. apply Z.shiftl_nonneg. lia. }
    pose proof (Z.div_eucl_eq m' (Z.pos (10 ^ q)) ltac:(lia)) as Heq.
    pose proof (Z.mod_pos_bound m' (Z.pos (10 ^ q)) ltac:(lia)) as Hmod.
    unfold Z.modulo in Hmod.
    destruct (Z.div_eucl m' (Z.pos (10 ^ q))) as [qq r].
    apply binary_round_aux_not_nan. nia.
Qed.
End RoundingFacts.

Lemma parse_decimal_not_nan (neg : bool) (s : list ascii) (x : float) :
  parse_decimal neg s = Some x -> is_nan x = false.
Proof.
  unfold parse_decimal. destruct (span_digits s) as [ip rest].
  destruct (match rest with [] => _ | _ => _ end) as [fp rest'].
  destruct (ip ++ fp)%list; [done|].
  destruct (parse_exponent rest'); [|done]. cbn.
  intros [= <-]. apply round_decimal_not_nan.
Qed.

Lemma lower_letter_plain (c : ascii) :
  lower_char c = "n"%char \/ lower_char c = "a"%char -> plain c.
Proof.
  destruct c as [[] [] [] [] [] [] [] []]; vm_compute;
    intros [H|H]; try discriminate H; split; reflexivity.
Qed.

Lemma nan_word_plain (body : list ascii) :
  lower_chars body = chars "nan" -> Forall plain body.
Proof.
  destruct body as [|c1 [|c2 [|c3 [|]]]]; try discriminate.
  intros [= H1 H2 H3].
  repeat constructor; apply lower_letter_plain; auto.
Qed.

Lemma take_sign_cases (t body : list ascii) (neg : bool) :
  take_sign t = (neg, body) ->
  t = body \/ exists c, t = c :: body /\ plain c.
Proof.
  destruct t as [|c t]; cbn; [intros [= _ <-]; by left|].
  destruct (ord c =? 45)%nat eqn:H45.
  { intros [= _ <-]. right. exists c. split; [done|].
    apply Nat.eqb_eq in H45. unfold plain, is_digit, is_underscore.
    by rewrite H45. }
  destruct (ord c =? 43)%nat eqn:H43.
  { intros [= _ <-]. right. exists c. split; [done|].
    apply Nat.eqb_eq in H43. unfold plain, is_digit, is_underscore.
    by rewrite H43. }
  intros [= _ <-]. by left.
Qed.

Lemma take_sign_plain (t : list ascii) :
  lower_chars (take_sign t).2 = chars "nan" -> Forall plain t.
Proof.
  intros Hw. destruct (take_sign t) as [neg body] eqn:Hs.
  apply nan_word_plain in Hw.
  apply take_sign_cases in Hs as [->|(c & -> & Hc)]; [done|by constructor].
Qed.

Lemma remove_underscores_plain (prev : option ascii) (s : list ascii) :
  (forall p, prev = Some p -> is_underscore p = false) ->
  Forall plain s -> remove_underscores prev s = Some s.
Proof.
  intros Hprev Hs. revert prev Hprev.
  induction Hs as [|c s [Hd Hu] _ IH]; intros prev Hprev.
  { cbn. destruct prev as [p|]; [|done]. by rewrite (Hprev p). }
  cbn. rewrite Hu.
  destruct prev as [p|].
  - rewrite (Hprev p) by done. cbn. rewrite IH; [done|]. by intros ? [= <-].
  - rewrite IH; [done|]. by intros ? [= <-].
Qed.

Lemma remove_underscores_inv (prev : option ascii) (s t : list ascii) :
  (forall p, prev = Some p -> is_digit p = false) ->
  remove_underscores prev s = Some t ->
  Forall plain t -> s = t.
Proof.
  revert prev t. induction s as [|c s IH]; intros prev t Hprev.
  { cbn. destruct prev as [p|]; [destruct (is_underscore p)|];
      by intros [= <-]. }
  cbn. destruct (is_underscore c) eqn:Hu.
  { destruct prev as [p|]; [|done]. by rewrite (Hprev p). }
  assert (forall t, cons c <$> remove_underscores (Some c) s = Some t ->
            Forall plain t -> c :: s = t) as Hstep.
  { intros t'. destruct (remove_underscores (Some c) s) as [t''|] eqn:Hr; [|done].
    cbn. intros [= <-] [[Hc _] Ht]%Forall_cons. f_equal.
    apply (IH (Some c)); [by intros ? [= <-]|done..]. }
  destruct prev as [p|]; [|apply Hstep].
  destruct (is_underscore p && negb (is_digit c)); [done|apply Hstep].
Qed.

Lemma parse_float_nan (s : string) :
  (exists x, parse_float (chars s) = Some x /\ is_nan x = true)
  <-> spells_nan s = true.
Proof.
  unfold spells_nan. rewrite bool_decide_eq_true. unfold parse_float. split.
  - intros (x & Hparse & Hnan).
    destruct (strip (chars s)) as [|c t] eqn:Hstrip; [done|].
    destruct (remove_underscores None (c :: t)) as [t'|] eqn:Hr; [|done].
    cbn [mbind option_bind] in Hparse.
    destruct (take_sign t') as [neg body] eqn:Hs.
    destruct (bool_decide (lower_chars body = chars "inf")
              || bool_decide (lower_chars body = chars "infinity")).
    { injection Hparse as <-. done. }
    destruct (bool_decide (lower_chars body = chars "nan")) eqn:Hw.
    + apply bool_decide_eq_true in Hw.
      assert (Forall plain t') as Hplain
        by (apply take_sign_plain; by rewrite Hs).
      apply remove_underscores_inv in Hr; [|done..].
      rewrite Hr, Hs. done.
    + apply parse_decimal_not_nan in Hparse. congruence.
  - intros Hw. pose proof (take_sign_plain _ Hw) as Hplain.
    destruct (strip (chars s)) as [|c t] eqn:Hstrip; [done|].
    rewrite remove_underscores_plain by done. cbn [mbind option_bind].
    destruct (take_sign (c :: t)) as [neg body]. cbn [snd] in Hw. rewrite Hw.
    exists nan. done.
Qed.

(** X6.  [parse_qed_value] returns NaN for the cells that read [nan] and
    for no others: every other cell gives a number that compares with
    all numbers, or negative infinity. *)
Theorem parse_qed_value_nan (v : value) :
  (exists x, parse_qed_value v = Ok x /\ is_nan x = true)
  <-> exists s, v = VStr s /\ spells_nan s = true.
Proof.
  destruct v as [s|].
  - unfold parse_qed_value, py_float. split.
    + intros (x & Hx & Hnan). exists s. split; [done|].
      apply parse_float_nan. exists x. split; [|done].
      destruct (parse_float (chars s)) as [y|]; cbn in Hx.
      * by injection Hx as <-.
      * injection Hx as <-. done.
    + intros (s' & [= <-] & (x & Hx & Hnan)%parse_float_nan).
      exists x. by rewrite Hx.
  - split; [intros (x & [= <-] & Hx); done|intros (s & Hs & _); done].
Qed.

Example parse_qed_value_signed_nan :
  spells_nan " -NaN" = true /\ parse_qed_value (VStr " -NaN") = Ok nan.
Proof. split; vm_compute; reflexivity. Qed.

(** ** More on [resolve_qed_field] *)

Lemma resolve_qed_field_lower (fieldnames : list string) (desired name : string) :
  resolve_qed_field fieldnames desired = Ok name ->
  name ∈ fieldnames /\ lower name = lower desired.
Proof.
  unfold resolve_qed_field.
  destruct (dict _ !! lower desired) as [n|] eqn:Hlook; [|done].
  intros [= ->].
  apply dict_lookup_Some in Hlook as (pre & post & Hpairs & _).
  assert ((lower desired, name) ∈ (fun n => (lower n, n)) <$> fieldnames)
    as Hin by (rewrite Hpairs, elem_of_app; right; left).
  by apply list_elem_of_fmap in Hin as (n & [= Hl ->] & Hn).
Qed.

Lemma resolve_qed_field_Raise_inv (fieldnames : list string) (desired : string)
    (e : exn) :
  resolve_qed_field fieldnames desired = Raise e ->
  forall name, name ∈ fieldnames -> lower name ≠ lower desired.
Proof.
  unfold resolve_qed_field.
  destruct (dict _ !! lower desired) as [n|] eqn:Hlook; [done|].
  intros _ name Hin.
  apply (dict_lookup_None_inv _ _ Hlook (lower name, name)).
  by apply (list_elem_of_fmap_2 (fun n => (lower n, n))).
Qed.

Lemma resolve_qed_field_found (pre post : list string) (name desired : string) :
  lower name = lower desired ->
  (forall n, n ∈ post -> lower n ≠ lower desired) ->
  resolve_qed_field (pre ++ name :: post)%list desired = Ok name.
Proof.
  intros Heq Hpost. unfold resolve_qed_field.
  rewrite (resolve_pairs _ pre post name eq_refl), Heq.
  rewrite dict_lookup_last; [done|].
  intros p (n & -> & Hn)%list_elem_of_fmap. by apply Hpost.
Qed.

(** X7.  The name [resolve_qed_field] returns resolves to itself, and so
    does every other spelling of the request that differs in letter case
    only: resolving is settled by the lowercase form alone. *)
Theorem resolve_qed_field_again (fieldnames : list string)
    (desired other name : string) :
  resolve_qed_field fieldnames desired = Ok name ->
  lower other = lower desired ->
  resolve_qed_field fieldnames name = Ok name
  /\ resolve_qed_field fieldnames other = Ok name.
Proof.
  intros Hres Hother.
  destruct (resolve_qed_field_lower _ _ _ Hres) as [_ Hlow].
  unfold resolve_qed_field in *. rewrite Hlow, Hother.
  by destruct (dict _ !! lower desired).
Qed.

Lemma resolve_qed_field_again_witness :
  resolve_qed_field ["ID"; "QED"; "qed"] "Qed" = Ok "qed"
  /\ lower "qEd" = lower "Qed"
  /\ resolve_qed_field ["ID"; "QED"; "qed"] "qed" = Ok "qed"
  /\ resolve_qed_field ["ID"; "QED"; "qed"] "qEd" = Ok "qed".
Proof.
  assert (resolve_qed_field ["ID"; "QED"; "qed"] "Qed" = Ok "qed") as H1
    by (vm_compute; reflexivity).
  assert (lower "qEd" = lower "Qed") as H2 by reflexivity.
  exact (conj H1 (conj H2 (resolve_qed_field_again _ _ _ _ H1 H2))).
Defined.

(** X8.  In a header no two names of which agree after lowercasing, each
    name is found by every spelling of it that differs in letter case
    only, and is returned as the header spells it. *)
Theorem resolve_qed_field_unique (fieldnames : list string) (name desired : string) :
  NoDup (lower <$> fieldnames) ->
  name ∈ fieldnames ->
  lower desired = lower name ->
  resolve_qed_field fieldnames desired = Ok name.
Proof.
  intros Hnodup (pre & post & ->)%list_elem_of_split Heq.
  apply resolve_qed_field_found; [done|].
  intros n Hn Hlow.
  rewrite fmap_app, fmap_cons in Hnodup.
  apply NoDup_app in Hnodup as (_ & _ & Hnodup).
  apply NoDup_cons in Hnodup as [Hnotin _]. apply Hnotin.
  rewrite <- Heq, <- Hlow. by apply list_elem_of_fmap_2.
Qed.

Lemma resolve_qed_field_unique_witness :
  NoDup (lower <$> ["ID"; "QED"; "Name"])
  /\ "QED" ∈ ["ID"; "QED"; "Name"]
  /\ lower "qed" = lower "QED"
  /\ resolve_qed_field ["ID"; "QED"; "Name"] "qed" = Ok "QED".
Proof.
  assert (NoDup (lower <$> ["ID"; "QED"; "Name"])) as H1.
  { apply (bool_decide_unpack (NoDup (lower <$> ["ID"; "QED"; "Name"]))).
    vm_compute. exact I. }
  assert ("QED" ∈ ["ID"; "QED"; "Name"]) as H2 by (right; left).
  assert (lower "qed" = lower "QED") as H3 by reflexivity.
  exact (conj H1 (conj H2 (conj H3 (resolve_qed_field_unique _ _ _ H1 H2 H3)))).
Defined.

(** ** More on [main] *)

Lemma main_unfold (args : Namespace) (w : world) (f : list (list string))
    (fieldnames : list string) (column : string) :
  files w !! input args = Some f ->
  DictReader_fieldnames f = Some fieldnames ->
  resolve_qed_field fieldnames (qed_field args) = Ok column ->
  main args w
  = (DictWriter_writerows (output args) fieldnames
       (sort_by (qed_number column) true (DictReader_rows fieldnames f));;
     print (summary (length (sort_by (qed_number column) true
                               (DictReader_rows fieldnames f)))
              column (output args)))
      (World (<[output args := [fieldnames]]> (files w)) (stdout w)).
Proof.
  intros Hfile Hhead Hcol. unfold main.
  unfold mbind at 1. unfold io_bind, path_exists.
  rewrite bool_decide_eq_true_2 by (by rewrite Hfile). cbn [negb].
  unfold mbind at 1. unfold io_bind, read_records. rewrite Hfile, Hhead.
  unfold mbind at 1. unfold io_bind, lift. rewrite Hcol.
  unfold mbind at 1. unfold io_bind. rewrite sort_rows_ok.
  unfold mbind at 1. unfold io_bind, mkdir_parent, mret, io_ret.
  unfold mbind at 1. unfold io_bind, open_write.
  unfold mbind at 1. unfold io_bind, DictWriter_writeheader, DictWriter_writerow.
  unfold mbind at 1. unfold io_bind, lift. rewrite writeheader_record.
  unfold writer_writerow at 1. cbn [files stdout].
  rewrite lookup_insert_eq, insert_insert_eq. cbn [default app].
  reflexivity.
Qed.

Lemma dict_to_list_cases (fieldnames : list string) (r : row) :
  dict_to_list fieldnames r = Ok (record_of fieldnames r)
  \/ dict_to_list fieldnames r = Raise ValueError.
Proof. unfold dict_to_list. destruct (bool_decide _); [by left|by right]. Qed.

Lemma written_all (fieldnames : list string) (rowdicts : list row) :
  Forall (fun r => exists record, dict_to_list fieldnames r = Ok record) rowdicts ->
  written fieldnames rowdicts = record_of fieldnames <$> rowdicts.
Proof.
  induction 1 as [|r rs [record Hr] _ IH]; [done|].
  cbn. destruct (dict_to_list_cases fieldnames r) as [Hok|Hbad]; [|congruence].
  by rewrite Hok, IH.
Qed.

Lemma written_lengths (fieldnames : list string) (rowdicts : list row) :
  Forall (fun record => length record = length fieldnames)
    (written fieldnames rowdicts).
Proof.
  induction rowdicts as [|r rs IH]; cbn; [constructor|].
  destruct (dict_to_list_cases fieldnames r) as [-> | ->]; [|constructor].
  constructor; [|done]. unfold record_of. by rewrite length_fmap.
Qed.

Lemma writerows_fails (path : string) (fieldnames : list string)
    (rowdicts : list row) (w : world) :
  Exists (fun r => dict_to_list fieldnames r = Raise ValueError) rowdicts ->
  (DictWriter_writerows path fieldnames rowdicts w).1 = Raise ValueError.
Proof.
  revert w. induction rowdicts as [|r rs IH]; intros w Hex; [by inversion Hex|].
  cbn [DictWriter_writerows].
  unfold mbind at 1. unfold io_bind, DictWriter_writerow.
  unfold mbind at 1. unfold io_bind, lift.
  destruct (dict_to_list_cases fieldnames r) as [Hok|Hbad].
  - rewrite Hok. unfold writer_writerow at 1. apply IH.
    apply Exists_cons in Hex as [Hr|Hrs]; [congruence|done].
  - by rewrite Hbad.
Qed.

Lemma DictReader_row_long (fieldnames record : list string) :
  (length fieldnames < length record)%nat ->
  dict_to_list fieldnames (DictReader_row fieldnames record) = Raise ValueError.
Proof.
  intros Hlen. unfold DictReader_row.
  destruct (Nat.ltb_spec (List.length fieldnames) (List.length record)) as [_|Hge];
    [|exfalso; lia].
  unfold dict_to_list. cbn [rest]. rewrite bool_decide_eq_false_2; [done|].
  by intros [? _].
Qed.

(** The rows of a file all pass [DictWriter] when no line is longer than
    the header, and one of them is refused otherwise. *)
Lemma rows_accepted (fieldnames : list string) (f : list (list string)) :
  Forall (fun record => (length record <= length fieldnames)%nat) (tail f) ->
  Forall (fun r => exists record, dict_to_list fieldnames r = Ok record)
    (DictReader_rows fieldnames f).
Proof.
  intros Hshort. unfold DictReader_rows. rewrite Forall_fmap. apply Forall_forall.
  intros record [_ Hin]%list_elem_of_filter. apply DictReader_row_accepted.
  rewrite Forall_forall in Hshort. by apply Hshort.
Qed.

Lemma rows_refused (fieldnames : list string) (f : list (list string)) :
  Exists (fun record => (length fieldnames < length record)%nat) (tail f) ->
  Exists (fun r => dict_to_list fieldnames r = Raise ValueError)
    (DictReader_rows fieldnames f).
Proof.
  intros (record & Hin & Hlong)%Exists_exists.
  apply Exists_exists. exists (DictReader_row fieldnames record). split.
  - unfold DictReader_rows. apply list_elem_of_fmap_2, list_elem_of_filter.
    split; [|done]. intros ->. cbn in Hlong. lia.
  - by apply DictReader_row_long.
Qed.

(** The run on a file no line of which is longer than its header. *)
Lemma main_run_short (args : Namespace) (w : world) (f : list (list string))
    (fieldnames : list string) (column : string) :
  files w !! input args = Some f ->
  DictReader_fieldnames f = Some fieldnames ->
  resolve_qed_field fieldnames (qed_field args) = Ok column ->
  Forall (fun record => (length record <= length fieldnames)%nat) (tail f) ->
  main args w
  = (Ok (),
     World (<[output args :=
                fieldnames
                :: (record_of fieldnames
                      <$> sort_by (qed_number column) true
                            (DictReader_rows fieldnames f))]>
              (files w))
           (stdout w
            ++ [summary (length (sort_by (qed_number column) true
                                   (DictReader_rows fieldnames f)))
                  column (output args)])%list).
Proof.
  intros Hfile Hhead Hcol Hshort.
  rewrite (main_unfold args w f fieldnames column) by done.
  set (sorted_rows := sort_by _ _ _).
  assert (Forall (fun r => exists record, dict_to_list fieldnames r = Ok record)
            sorted_rows) as Hacc.
  { subst sorted_rows. rewrite sort_by_perm. by apply rows_accepted. }
  set (w1 := World _ _).
  destruct (writerows_run (output args) fieldnames sorted_rows w1 [fieldnames])
    as (res & Hrun & Hok); [apply lookup_insert_eq|].
  rewrite (Hok Hacc) in Hrun.
  unfold mbind at 1. unfold io_bind. rewrite Hrun.
  subst w1. cbn [files stdout print]. rewrite insert_insert_eq.
  by rewrite written_all.
Qed.

(** Every run is of one of two kinds: it stops on a structural error
    with the world as it was, or it has a file, a header and a column. *)
Lemma main_cases (args : Namespace) (w : world) :
  (exists msg, structural_error args w msg
               /\ main args w = (Raise (SystemExit msg), w))
  \/ (exists f fieldnames column,
        files w !! input args = Some f
        /\ DictReader_fieldnames f = Some fieldnames
        /\ resolve_qed_field fieldnames (qed_field args) = Ok column).
Proof.
  destruct (files w !! input args) as [f|] eqn:Hfile.
  - destruct f as [|fieldnames records].
    + left. eexists. split; [by apply MissingHeader|].
      unfold main. unfold mbind at 1. unfold io_bind, path_exists.
      rewrite bool_decide_eq_true_2 by (by rewrite Hfile). cbn [negb].
      unfold mbind at 1. unfold io_bind, read_records. by rewrite Hfile.
    + destruct (resolve_qed_field fieldnames (qed_field args)) as [column|e] eqn:Hcol.
      * right. by exists (fieldnames :: records), fieldnames, column.
      * left. pose proof (resolve_qed_field_Raise_inv _ _ _ Hcol) as Hno.
        eexists. split; [by eapply ColumnNotFound|].
        unfold main. unfold mbind at 1. unfold io_bind, path_exists.
        rewrite bool_decide_eq_true_2 by (by rewrite Hfile). cbn [negb].
        unfold mbind at 1. unfold io_bind, read_records. rewrite Hfile.
        cbn [DictReader_fieldnames head].
        unfold mbind at 1. unfold io_bind, lift.
        by rewrite resolve_qed_field_Raise.
  - left. eexists. split; [by apply InputNotFound|].
    unfold main. unfold mbind at 1. unfold io_bind, path_exists.
    rewrite bool_decide_eq_false_2; [done|]. rewrite Hfile. by intros [? ?].
Qed.

(** The run on a file with a line longer than its header. *)
Lemma main_run_long (args : Namespace) (w : world) (f : list (list string))
    (fieldnames : list string) (column : string) :
  files w !! input args = Some f ->
  DictReader_fieldnames f = Some fieldnames ->
  resolve_qed_field fieldnames (qed_field args) = Ok column ->
  Exists (fun record => (length fieldnames < length record)%nat) (tail f) ->
  (main args w).1 = Raise ValueError.
Proof.
  intros Hfile Hhead Hcol Hex.
  rewrite (main_unfold args w f fieldnames column) by done.
  unfold mbind at 1. unfold io_bind.
  set (w1 := World _ _). set (sorted_rows := sort_by _ _ _).
  assert ((DictWriter_writerows (output args) fieldnames sorted_rows w1).1
          = Raise ValueError) as Hfail.
  { apply writerows_fails. subst sorted_rows. rewrite sort_by_perm.
    by apply rows_refused. }
  destruct (DictWriter_writerows (output args) fieldnames sorted_rows w1)
    as [res w2]. cbn [fst] in Hfail. by subst res.
Qed.

(** X9.  What a normal return guarantees.  If [main] returns without an
    exception, then the input file exists, has a header in which the
    column resolves, and has no line with more cells than the header;
    and the output file holds the header followed by exactly one record
    for each non-blank line read, in the order of [sort_rows], each with
    one cell per header name (an empty cell where the line was short). *)
Theorem main_normal_return (args : Namespace) (w : world) :
  (main args w).1 = Ok () ->
  exists f fieldnames column sorted_rows,
    files w !! input args = Some f
    /\ DictReader_fieldnames f = Some fieldnames
    /\ resolve_qed_field fieldnames (qed_field args) = Ok column
    /\ Forall (fun record => (length record <= length fieldnames)%nat) (tail f)
    /\ sort_rows (DictReader_rows fieldnames f) column = Ok sorted_rows
    /\ length sorted_rows = length (filter (fun record => record ≠ []) (tail f))
    /\ files (main args w).2 !! output args
       = Some (fieldnames :: (record_of fieldnames <$> sorted_rows)).
Proof.
  intros Hok.
  destruct (main_cases args w)
    as [(msg & _ & Hrun)|(f & fieldnames & column & Hfile & Hhead & Hcol)].
  { rewrite Hrun in Hok. discriminate Hok. }
  destruct (decide (Forall (fun record => (length record <= length fieldnames)%nat)
                      (tail f))) as [Hshort|Hlong].
  - exists f, fieldnames, column,
      (sort_by (qed_number column) true (DictReader_rows fieldnames f)).
    repeat (split; [done|]).
    split; [apply sort_rows_ok|]. split.
    + rewrite sort_by_length. unfold DictReader_rows. by rewrite length_fmap.
    + rewrite (main_run_short args w f fieldnames column) by done.
      apply lookup_insert_eq.
  - apply not_Forall_Exists in Hlong; [|apply _].
    assert (Exists (fun record => (length fieldnames < length record)%nat) (tail f))
      as Hex.
    { eapply Exists_impl; [exact Hlong|]. intros record Hr. cbn in Hr. lia. }
    rewrite (main_run_long args w f fieldnames column) in Hok by done.
    discriminate Hok.
Qed.

Lemma main_normal_return_witness :
  let args := {| input := "in.csv"; output := "out.csv"; qed_field := "qed" |} in
  let w := World {[ "in.csv" := [["ID"; "QED"]; ["a"; "0.5"]; []; ["c"];
                                 ["b"; "0.9"]];
                    "out.csv" := [["old"]] ]} [] in
  (main args w).1 = Ok ()
  /\ exists f fieldnames column sorted_rows,
       files w !! input args = Some f
       /\ DictReader_fieldnames f = Some fieldnames
       /\ resolve_qed_field fieldnames (qed_field args) = Ok column
       /\ Forall (fun record => (length record <= length fieldnames)%nat) (tail f)
       /\ sort_rows (DictReader_rows fieldnames f) column = Ok sorted_rows
       /\ length sorted_rows = length (filter (fun record => record ≠ []) (tail f))
       /\ files (main args w).2 !! output args
          = Some (fieldnames :: (record_of fieldnames <$> sorted_rows)).
Proof.
  intros args w.
  assert ((main args w).1 = Ok ()) as H by (vm_compute; reflexivity).
  exact (conj H (main_normal_return args w H)).
Defined.

(** X12.  Whenever header and column are found, every record in the
    output file, the header included, has as many cells as the header,
    also where the input lines were shorter and also after a run that
    ended in [ValueError]. *)
Theorem main_rectangular (args : Namespace) (w : world) (f : list (list string))
    (fieldnames : list string) (column : string) :
  files w !! input args = Some f ->
  DictReader_fieldnames f = Some fieldnames ->
  resolve_qed_field fieldnames (qed_field args) = Ok column ->
  exists out,
    files (main args w).2 !! output args = Some out
    /\ Forall (fun record => length record = length fieldnames) out.
Proof.
  intros Hfile Hhead Hcol.
  destruct (main_valid args w f fieldnames column Hfile Hhead Hcol)
    as (res & lines & -> & _).
  eexists. split; [apply lookup_insert_eq|].
  constructor; [done|apply written_lengths].
Qed.

Lemma main_rectangular_witness :
  let args := {| input := "in.csv"; output := "out.csv"; qed_field := "qed" |} in
  let f := [["id"; "qed"; "name"]; ["a"]; ["b"; "0.9"; "x"; "y"]; ["c"; "0.1"]] in
  let w := World {[ "in.csv" := f ]} [] in
  files w !! input args = Some f
  /\ DictReader_fieldnames f = Some ["id"; "qed"; "name"]
  /\ resolve_qed_field ["id"; "qed"; "name"] (qed_field args) = Ok "qed"
  /\ exists out,
       files (main args w).2 !! output args = Some out
       /\ Forall (fun record => length record = length ["id"; "qed"; "name"]) out.
Proof.
  intros args f w.
  assert (files w !! input args = Some f) as H1 by reflexivity.
  assert (DictReader_fieldnames f = Some ["id"; "qed"; "name"]) as H2
    by reflexivity.
  assert (resolve_qed_field ["id"; "qed"; "name"] (qed_field args) = Ok "qed")
    as H3 by (vm_compute; reflexivity).
  exact (conj H1 (conj H2 (conj H3 (main_rectangular args w f _ _ H1 H2 H3)))).
Defined.

(** Reading back what [DictWriter] wrote. *)
Lemma dict_diag_lookup {V} (h : string -> V) (names : list string) (key : string) :
  key ∈ names ->
  dict ((fun n => (n, h n)) <$> names) !! key = Some (h key).
Proof.
  intros Hkey. destruct (dict _ !! key) as [v|] eqn:Hlook.
  - apply dict_lookup_Some in Hlook as (pre & post & Hpairs & _).
    assert ((key, v) ∈ (fun n => (n, h n)) <$> names) as Hin
      by (rewrite Hpairs, elem_of_app; right; left).
    by apply list_elem_of_fmap in Hin as (n & [= -> ->] & _).
  - exfalso. apply (dict_lookup_None_inv _ _ Hlook (key, h key)); [|done].
    by apply (list_elem_of_fmap_2 (fun n => (n, h n))).
Qed.

Lemma reread_get (fieldnames : list string) (r : row) (key : string) :
  key ∈ fieldnames ->
  row_get (DictReader_row fieldnames (record_of fieldnames r)) key (VStr "")
  = VStr (cell_text (row_get r key (VStr ""))).
Proof.
  intros Hkey. unfold DictReader_row, record_of.
  rewrite !length_fmap, Nat.ltb_irrefl, drop_all. cbn [fold_left].
  unfold row_get at 1. cbn [fields].
  rewrite <- list_fmap_compose, zip_fmap_diag.
  by rewrite (dict_diag_lookup _ _ _ Hkey).
Qed.

Lemma reread_record (fieldnames : list string) (r : row) :
  record_of fieldnames (DictReader_row fieldnames (record_of fieldnames r))
  = record_of fieldnames r.
Proof.
  unfold record_of at 1 3. apply Forall_fmap_ext, Forall_forall.
  intros key Hkey. by rewrite reread_get.
Qed.

Lemma reread_number (fieldnames : list string) (r : row) (column : string) :
  column ∈ fieldnames ->
  qed_number column (DictReader_row fieldnames (record_of fieldnames r))
  = qed_number column r.
Proof.
  intros Hcol. unfold qed_number. rewrite reread_get by done.
  by destruct (row_get r column (VStr "")).
Qed.

(** X13.  Running the script on its own output reproduces it.  Let a run
    on a file without NaN in the column return normally, and let a
    second run, reading the first run's output file and sorting by the
    same column, return normally too: then the second run has written,
    record for record and cell for cell, what the first run wrote. *)
Theorem main_rerun (args args' : Namespace) (w : world) (f : list (list string))
    (fieldnames : list string) (column : string) :
  files w !! input args = Some f ->
  DictReader_fieldnames f = Some fieldnames ->
  resolve_qed_field fieldnames (qed_field args) = Ok column ->
  no_nan column (DictReader_rows fieldnames f) ->
  input args' = output args ->
  qed_field args' = qed_field args ->
  (main args w).1 = Ok () ->
  (main args' (main args w).2).1 = Ok () ->
  exists out,
    files (main args w).2 !! output args = Some out
    /\ files (main args' (main args w).2).2 !! output args' = Some out.
Proof.
  intros Hfile Hhead Hcol _ Hin Hfield Hok _.
  assert (Forall (fun record => (length record <= length fieldnames)%nat) (tail f))
    as Hshort.
  { destruct (decide (Forall (fun record => (length record <= length fieldnames)%nat)
                        (tail f))) as [|Hlong]; [done|exfalso].
    apply not_Forall_Exists in Hlong; [|apply _].
    rewrite (main_run_long args w f fieldnames column) in Hok; [discriminate Hok|done..|].
    eapply Exists_impl; [exact Hlong|]. intros record Hr. cbn in Hr. lia. }
  clear Hok.
  rewrite (main_run_short args w f fieldnames column Hfile Hhead Hcol Hshort).
  set (sorted_rows := sort_by (qed_number column) true (DictReader_rows fieldnames f)).
  assert (sorted_rows
          = sort_by (qed_number column) true (DictReader_rows fieldnames f))
    as Hsorted by done.
  clearbody sorted_rows.
  cbn [snd]. set (w1 := World _ _).
  set (f2 := fieldnames :: (record_of fieldnames <$> sorted_rows)).
  assert (column ∈ fieldnames) as Hmem
    by (by apply resolve_qed_field_lower in Hcol as [? _]).
  assert (files w1 !! input args' = Some f2) as Hfile2
    by (rewrite Hin; apply lookup_insert_eq).
  assert (resolve_qed_field fieldnames (qed_field args') = Ok column) as Hcol2
    by (by rewrite Hfield).
  assert (Forall (fun record => (length record <= length fieldnames)%nat) (tail f2))
    as Hshort2.
  { subst f2. cbn [tail]. rewrite Forall_fmap. apply Forall_true.
    intros r. cbn. unfold record_of. by rewrite length_fmap. }
  rewrite (main_run_short args' w1 f2 fieldnames column Hfile2 eq_refl Hcol2 Hshort2).
  exists f2. split; [apply lookup_insert_eq|].
  cbn [snd files]. rewrite lookup_insert_eq. subst f2. do 2 f_equal.
  unfold DictReader_rows. cbn [tail].
  rewrite (filter_all (fun record => record ≠ [])).
  2:{ rewrite Forall_fmap. apply Forall_true. intros r Hnil.
      apply (f_equal length) in Hnil. unfold record_of in Hnil.
      rewrite length_fmap in Hnil. destruct fieldnames; [inversion Hmem|done]. }
  rewrite <- list_fmap_compose, <- sort_by_fmap, <- list_fmap_compose.
  rewrite (sort_by_ext _ (qed_number column))
    by (intros r _; by apply reread_number).
  rewrite Hsorted, sort_by_idem.
  apply list_fmap_ext. intros _ r _. apply reread_record.
Qed.

Lemma main_rerun_witness :
  let args := {| input := "in.csv"; output := "out.csv"; qed_field := "qed" |} in
  let args' := {| input := "out.csv"; output := "again.csv"; qed_field := "qed" |} in
  let f := [["ID"; "QED"]; ["a"; "0.5"]; []; ["c"]; ["b"; "0.9"]] in
  let w := World {[ "in.csv" := f ]} [] in
  files w !! input args = Some f
  /\ DictReader_fieldnames f = Some ["ID"; "QED"]
  /\ resolve_qed_field ["ID"; "QED"] (qed_field args) = Ok "QED"
  /\ no_nan "QED" (DictReader_rows ["ID"; "QED"] f)
  /\ input args' = output args
  /\ qed_field args' = qed_field args
  /\ (main args w).1 = Ok ()
  /\ (main args' (main args w).2).1 = Ok ()
  /\ exists out,
       files (main args w).2 !! output args = Some out
       /\ files (main args' (main args w).2).2 !! output args' = Some out.
Proof.
  intros args args' f w.
  assert (files w !! input args = Some f) as H1 by reflexivity.
  assert (DictReader_fieldnames f = Some ["ID"; "QED"]) as H2 by reflexivity.
  assert (resolve_qed_field ["ID"; "QED"] (qed_field args) = Ok "QED") as H3
    by (vm_compute; reflexivity).
  assert (no_nan "QED" (DictReader_rows ["ID"; "QED"] f)) as H4.
  { apply (bool_decide_unpack
             (Forall (fun r => is_nan (qed_number "QED" r) = false)
                (DictReader_rows ["ID"; "QED"] f))).
    vm_compute. exact I. }
  assert (input args' = output args) as H5 by reflexivity.
  assert (qed_field args' = qed_field args) as H6 by reflexivity.
  assert ((main args w).1 = Ok ()) as H7 by (vm_compute; reflexivity).
  assert ((main args' (main args w).2).1 = Ok ()) as H8
    by (vm_compute; reflexivity).
  exact (conj H1 (conj H2 (conj H3 (conj H4 (conj H5 (conj H6 (conj H7 (conj H8
           (main_rerun args args' w f _ _ H1 H2 H3 H4 H5 H6 H7 H8))))))))).
Defined.

Lemma reread_rows (fieldnames : list string) (rows : list row) :
  fieldnames ≠ [] ->
  DictReader_rows fieldnames (fieldnames :: (record_of fieldnames <$> rows))
  = (fun r => DictReader_row fieldnames (record_of fieldnames r)) <$> rows.
Proof.
  intros Hne. unfold DictReader_rows. cbn [tail].
  rewrite (filter_all (fun record => record ≠ [])).
  - by rewrite <- list_fmap_compose.
  - rewrite Forall_fmap. apply Forall_true. intros r Hnil.
    apply (f_equal length) in Hnil. unfold record_of in Hnil.
    rewrite length_fmap in Hnil. by destruct fieldnames.
Qed.

(** X14.  The output file is sorted as a reader sees it: after a run on a
    file with a header, the column, no line longer than the header and
    no NaN in the column, the records that [csv.DictReader] reads from
    the output file are in descending order of the column. *)
Theorem main_output_descending (args : Namespace) (w : world)
    (f : list (list string)) (fieldnames : list string) (column : string) :
  files w !! input args = Some f ->
  DictReader_fieldnames f = Some fieldnames ->
  resolve_qed_field fieldnames (qed_field args) = Ok column ->
  Forall (fun record => (length record <= length fieldnames)%nat) (tail f) ->
  no_nan column (DictReader_rows fieldnames f) ->
  exists out,
    files (main args w).2 !! output args = Some out
    /\ DictReader_fieldnames out = Some fieldnames
    /\ descending column (DictReader_rows fieldnames out).
Proof.
  intros Hfile Hhead Hcol Hshort Hnan.
  rewrite (main_run_short args w f fieldnames column Hfile Hhead Hcol Hshort).
  assert (column ∈ fieldnames) as Hmem
    by (by apply resolve_qed_field_lower in Hcol as [? _]).
  eexists. split; [apply lookup_insert_eq|]. split; [done|].
  rewrite reread_rows by (intros ->; inversion Hmem).
  intros i j ri rj Hij Hi Hj.
  apply list_lookup_fmap_Some in Hi as (ri' & -> & Hi).
  apply list_lookup_fmap_Some in Hj as (rj' & -> & Hj).
  rewrite !reread_number by done.
  by eapply sort_by_descending.
Qed.

Lemma main_output_descending_witness :
  let args := {| input := "in.csv"; output := "out.csv"; qed_field := "qed" |} in
  let f := [["ID"; "QED"]; ["a"; "0.5"]; []; ["c"]; ["b"; "0.9"]] in
  let w := World {[ "in.csv" := f ]} [] in
  files w !! input args = Some f
  /\ DictReader_fieldnames f = Some ["ID"; "QED"]
  /\ resolve_qed_field ["ID"; "QED"] (qed_field args) = Ok "QED"
  /\ Forall (fun record => (length record <= length ["ID"; "QED"])%nat) (tail f)
  /\ no_nan "QED" (DictReader_rows ["ID"; "QED"] f)
  /\ exists out,
       files (main args w).2 !! output args = Some out
       /\ DictReader_fieldnames out = Some ["ID"; "QED"]
       /\ descending "QED" (DictReader_rows ["ID"; "QED"] out).
Proof.
  intros args f w.
  assert (files w !! input args = Some f) as H1 by reflexivity.
  assert (DictReader_fieldnames f = Some ["ID"; "QED"]) as H2 by reflexivity.
  assert (resolve_qed_field ["ID"; "QED"] (qed_field args) = Ok "QED") as H3
    by (vm_compute; reflexivity).
  assert (Forall (fun record => (length record <= length ["ID"; "QED"])%nat)
            (tail f)) as H4 by (repeat constructor).
  assert (no_nan "QED" (DictReader_rows ["ID"; "QED"] f)) as H5.
  { apply (bool_decide_unpack
             (Forall (fun r => is_nan (qed_number "QED" r) = false)
                (DictReader_rows ["ID"; "QED"] f))).
    vm_compute. exact I. }
  exact (conj H1 (conj H2 (conj H3 (conj H4 (conj H5
           (main_output_descending args w f _ _ H1 H2 H3 H4 H5)))))).
Defined.




